(** * Doctown web API and documenter core: a shallow embedding

    The SvelteKit endpoints of the web UI are embedded from their TypeScript
    source; so is the Python program the query endpoint runs, as far as
    CPython's compilation of it goes.  The documenter's sandbox, task graph and output
    writer (the [documenter/] Python package) are modelled from the spec. *)

From Stdlib Require Import String Ascii List ZArith NArith Bool Lia Sorting.Permutation Sorting.Sorted Relations DecimalString.
Import ListNotations.
Open Scope string_scope.
Set Warnings "-register-all".

(* ------------------------------------------------------------------ *)
(** ** Strings and Node's [path] module (posix) *)

Module Path.

(** [s.includes(sub)] *)
Fixpoint includes (s sub : string) : bool :=
  String.prefix sub s ||
  match s with
  | EmptyString => false
  | String _ s' => includes s' sub
  end.

Definition slash : ascii := "/"%char.

(** [s.split('/')] *)
Fixpoint split_slash_acc (s : string) (cur : string) : list string :=
  match s with
  | EmptyString => [cur]
  | String c s' =>
      if Ascii.eqb c slash then cur :: split_slash_acc s' EmptyString
      else split_slash_acc s' (cur ++ String c EmptyString)
  end.

Definition split_slash (s : string) : list string := split_slash_acc s EmptyString.

(** [arr.join(sep)] *)
Fixpoint join_with (sep : string) (l : list string) : string :=
  match l with
  | [] => EmptyString
  | [x] => x
  | x :: l' => x ++ sep ++ join_with sep l'
  end.

Definition starts_with_slash (s : string) : bool :=
  match s with
  | String c _ => Ascii.eqb c slash
  | EmptyString => false
  end.

Fixpoint last_char (s : string) : option ascii :=
  match s with
  | EmptyString => None
  | String c EmptyString => Some c
  | String _ s' => last_char s'
  end.

Definition ends_with_slash (s : string) : bool :=
  match last_char s with
  | Some c => Ascii.eqb c slash
  | None => false
  end.

(** One step of [normalizeString]: the result is kept as a stack of
    segments, most recent first. *)
Definition norm_step (allow_above : bool) (res : list string) (seg : string)
  : list string :=
  if String.eqb seg "" || String.eqb seg "." then res
  else if String.eqb seg ".." then
    match res with
    | x :: r =>
        if String.eqb x ".." then (if allow_above then ".." :: res else res)
        else r
    | [] => if allow_above then [".."] else []
    end
  else seg :: res.

Definition normalize_string (allow_above : bool) (p : string) : string :=
  join_with "/" (rev (fold_left (norm_step allow_above) (split_slash p) [])).

(** [path.normalize] *)
Definition normalize (p : string) : string :=
  if String.eqb p "" then "."
  else
    let abs := starts_with_slash p in
    let trailing := ends_with_slash p in
    let body := normalize_string (negb abs) p in
    if String.eqb body "" then
      (if abs then "/" else if trailing then "./" else ".")
    else
      let body' := if trailing then body ++ "/" else body in
      if abs then "/" ++ body' else body'.

(** [path.join(...args)] *)
Definition join_all (args : list string) : string :=
  let joined := join_with "/" (filter (fun a => negb (String.eqb a "")) args) in
  if String.eqb joined "" then "." else normalize joined.

Definition join (a b : string) : string := join_all [a; b].

(** [path.dirname] for the normalised absolute paths used below. *)
Definition dirname (p : string) : string :=
  match rev (split_slash p) with
  | _ :: rest =>
      let d := join_with "/" (rev rest) in
      if String.eqb d "" then "/" else d
  | [] => "/"
  end.

Definition is_absolute (p : string) : bool := starts_with_slash p.

Fixpoint no_slash (s : string) : bool :=
  match s with
  | EmptyString => true
  | String c s' => negb (Ascii.eqb c slash) && no_slash s'
  end.

(** A segment [normalize] keeps as it is. *)
Definition good_seg (s : string) : bool :=
  negb (String.eqb s "") && negb (String.eqb s ".") && negb (String.eqb s "..")
  && no_slash s.

(** [p] lies at or below directory [root] (both normalised, absolute). *)
Definition within (root p : string) : bool :=
  String.eqb p root || String.prefix (root ++ "/") p.

(** The segment stack [normalize] builds for an absolute path. *)
Definition stack (p : string) : list string :=
  fold_left (norm_step false) (split_slash p) [].

End Path.

(* ------------------------------------------------------------------ *)
(** ** The filesystem, as seen through [fs/promises] *)

Module FS.

Inductive node :=
| NFile (content : string)
| NDir
| NLink (target : string).

(** A filesystem: normalised absolute paths to nodes. *)
Definition fs := list (string * node).

Fixpoint lookup (t : fs) (p : string) : option node :=
  match t with
  | [] => None
  | (q, n) :: t' => if String.eqb q p then Some n else lookup t' p
  end.

Inductive read_result :=
| ROk (content : string)
| RErr (message : string).

(** [readFile(p, 'utf-8')]: symbolic links are followed (up to Linux's
    40-link limit); a relative link target is taken from the link's
    directory. *)
Fixpoint read_file_fuel (fuel : nat) (t : fs) (p : string) : read_result :=
  match fuel with
  | O => RErr ("ELOOP: too many symbolic links encountered, open '" ++ p ++ "'")
  | S fuel' =>
      match lookup t p with
      | None => RErr ("ENOENT: no such file or directory, open '" ++ p ++ "'")
      | Some NDir => RErr "EISDIR: illegal operation on a directory, read"
      | Some (NFile c) => ROk c
      | Some (NLink target) =>
          read_file_fuel fuel'
            t (if Path.is_absolute target then Path.normalize target
               else Path.join (Path.dirname p) target)
      end
  end.

Definition read_file (t : fs) (p : string) : read_result := read_file_fuel 41 t p.

(** The path of the node [readFile] finally opens (the end of the link chain). *)
Fixpoint real_path_fuel (fuel : nat) (t : fs) (p : string) : string :=
  match fuel with
  | O => p
  | S fuel' =>
      match lookup t p with
      | Some (NLink target) =>
          real_path_fuel fuel'
            t (if Path.is_absolute target then Path.normalize target
               else Path.join (Path.dirname p) target)
      | _ => p
      end
  end.

Definition real_path (t : fs) (p : string) : string := real_path_fuel 41 t p.

End FS.

(* ------------------------------------------------------------------ *)
(** ** JSON values and the responses of the SvelteKit endpoints *)

Module Json.

Inductive jvalue :=
| JNull
| JBool (b : bool)
| JNum (n : Z)
| JStr (s : string)
| JArr (l : list jvalue)
| JObj (fields : list (string * jvalue)).

(** JavaScript truthiness of a JSON value ([undefined] is [None]). *)
Definition truthy (v : option jvalue) : bool :=
  match v with
  | None | Some JNull => false
  | Some (JBool b) => b
  | Some (JNum n) => negb (Z.eqb n 0)
  | Some (JStr s) => negb (String.eqb s "")
  | Some (JArr _) | Some (JObj _) => true
  end.

Fixpoint assoc (k : string) (l : list (string * jvalue)) : option jvalue :=
  match l with
  | [] => None
  | (k', v) :: l' => if String.eqb k k' then Some v else assoc k l'
  end.

(** Property access [v.k]: [None] is a [TypeError] (reading a property of
    [null]); [Some None] is [undefined]. *)
Definition get (v : jvalue) (k : string) : option (option jvalue) :=
  match v with
  | JNull => None
  | JObj fs => Some (assoc k fs)
  | _ => Some None
  end.

End Json.

Module Http.
Import Json.

Record response := mk_response { status : Z; body : jvalue }.

(** [json(body)] answers with status 200 unless told otherwise. *)
Definition json (b : jvalue) : response := mk_response 200 b.
Definition json_status (b : jvalue) (s : Z) : response := mk_response s b.

Definition error_body (msg : string) : jvalue := JObj [("error", JStr msg)].

(** What an [async] request handler produces: a response, or a rejected
    promise that escapes the handler (SvelteKit's generic error path). *)
Inductive outcome :=
| HResp (r : response)
| HUncaught (message : string).

End Http.

(* ------------------------------------------------------------------ *)
(** ** [GET /api/docpack/[id]/file?path=...] (src/unnamed/part_008) *)

Module FileEndpoint.
Import Json Http.

(** What the handler does next: answer without touching the disk, or read
    one file and answer from its result. *)
Inductive step :=
| Done (r : response)
| ReadThen (path : string) (k : FS.read_result -> response).

(** [join(homedir(), '.localdoc', 'outputs')] *)
Definition OUTPUT_DIR (home : string) : string :=
  Path.join_all [home; ".localdoc"; "outputs"].

Definition docpack_path (home id : string) : string :=
  Path.join (OUTPUT_DIR home) (id ++ ".docpack").

(** [return json({ content })], or the [catch] block's 500. *)
Definition read_response (r : FS.read_result) : response :=
  match r with
  | FS.ROk content => json (JObj [("content", JStr content)])
  | FS.RErr msg => json_status (error_body msg) 500
  end.

(** [url.searchParams.get('path')] is [None] when the parameter is absent. *)
Definition GET (home id : string) (path_param : option string) : step :=
  match path_param with
  | None => Done (json_status (error_body "No file path provided") 400)
  | Some filePath =>
      if String.eqb filePath "" then
        Done (json_status (error_body "No file path provided") 400)
      else if Path.includes filePath ".." then
        Done (json_status (error_body "Invalid file path") 400)
      else
        let docpackPath := docpack_path home id in
        let fullPath := Path.join docpackPath filePath in
        ReadThen fullPath read_response
  end.

(** Running the handler against a filesystem: the response and the list of
    paths opened. *)
Definition run (t : FS.fs) (s : step) : response * list string :=
  match s with
  | Done r => (r, [])
  | ReadThen p k => (k (FS.read_file t p), [p])
  end.

End FileEndpoint.

(* ------------------------------------------------------------------ *)
(** ** The query agent: the Python program run by the query endpoint
    (src/unnamed/part_009, lines 37-137) *)

Module QueryScript.

Definition newline : ascii := Ascii.ascii_of_nat 10.
Definition dq : ascii := Ascii.ascii_of_nat 34.
Definition sq : ascii := Ascii.ascii_of_nat 39.
Definition backslash : ascii := Ascii.ascii_of_nat 92.

(** The lines below write the double quote as a backquote, a character the
    template literal cannot hold unescaped. *)
Fixpoint unquote (s : string) : string :=
  match s with
  | EmptyString => EmptyString
  | String c s' => String (if Ascii.eqb c "`"%char then dq else c) (unquote s')
  end.

(** The template literal passed after [python -c], line by line: it opens
    with the newline after the backquote of line 37, and the JavaScript
    escape [\\n] of lines 122, 128 and 136 reaches Python as [\n]. *)
Definition query_script_lines : list string :=
  ["";
   "import os";
   "import sys";
   "import json";
   "from openai import OpenAI";
   "from sandbox import Sandbox";
   "from tools import DocpackTools";
   "";
   "# Initialize";
   "sandbox = Sandbox()";
   "tools = DocpackTools(sandbox)";
   "client = OpenAI(api_key=os.getenv(`OPENAI_API_KEY`))";
   "query = os.getenv(`QUERY`)";
   "";
   "# Build query prompt";
   "prompt = f```You are a Query Engine for a .docpack universe. A user has asked:";
   "";
   "`{query}`";
   "";
   "Use the available tools to search through the files, read relevant content, and provide an accurate, detailed answer.";
   "";
   "IMPORTANT:";
   "- Use list_files to explore the structure";
   "- Use read_file to read relevant files";
   "- Search systematically and cite specific files/sections";
   "- Provide a clear, direct answer";
   "- List all source files you referenced";
   "";
   "Your response should be structured as:";
   "ANSWER: [your detailed answer here]";
   "SOURCES: [list of file paths you referenced]";
   "```";
   "";
   "messages = [{`role`: `user`, `content`: prompt}]";
   "tool_definitions = tools.get_tool_definitions()";
   "";
   "# Query loop (max 15 iterations)";
   "max_iterations = 15";
   "iteration = 0";
   "thinking_log = []";
   "";
   "while iteration < max_iterations:";
   "	iteration += 1";
   "";
   "	response = client.chat.completions.create(";
   "		model=5-nano`,";
   "		messages=messages,";
   "		tools=tool_definitions,";
   "		tool_choice=`auto`";
   "	)";
   "";
   "	message = response.choices[0].message";
   "	messages.append(message)";
   "";
   "	# Track thinking";
   "	if message.content:";
   "		thinking_log.append(f`[Iteration {iteration}] {message.content[:200]}...`)";
   "";
   "	if message.tool_calls:";
   "		for tool_call in message.tool_calls:";
   "			tool_name = tool_call.function.name";
   "			args = json.loads(tool_call.function.arguments)";
   "			result = tools.execute(tool_name, args)";
   "";
   "			thinking_log.append(f`[Tool] {tool_name}({args})`)";
   "";
   "			messages.append({";
   "				`role`: `tool`,";
   "				`tool_call_id`: tool_call.id,";
   "				`name`: tool_name,";
   "				`content`: json.dumps(result)";
   "			})";
   "	elif message.content:";
   "		# Agent has finished";
   "		content = message.content";
   "";
   "		# Parse answer and sources";
   "		answer = content";
   "		sources = []";
   "";
   "		if `ANSWER:` in content:";
   "			parts = content.split(`SOURCES:`)";
   "			answer = parts[0].replace(`ANSWER:`, ``).strip()";
   "			if len(parts) > 1:";
   "				source_text = parts[1].strip()";
   "				sources = [s.strip() for s in source_text.split(`\n`) if s.strip() and s.strip() != `-`]";
   "";
   "		# Output JSON";
   "		result = {";
   "			`answer`: answer,";
   "			`sources`: sources,";
   "			`thinking`: `\n`.join(thinking_log)";
   "		}";
   "		print(json.dumps(result))";
   "		sys.exit(0)";
   "	else:";
   "		break";
   "";
   "# Fallback";
   "print(json.dumps({`answer`: `Unable to find a complete answer`, `sources`: [], `thinking`: `\n`.join(thinking_log)}))";
   ""].

Definition query_script : string :=
  unquote (Path.join_with (String newline EmptyString) query_script_lines).

(** CPython's tokenizer, as far as comments and string literals go. *)
Definition is_ident_char (c : ascii) : bool :=
  let n := Ascii.nat_of_ascii c in
  (((48 <=? n) && (n <=? 57)) || ((65 <=? n) && (n <=? 90))
   || ((97 <=? n) && (n <=? 122)) || Nat.eqb n 95 || (128 <=? n))%nat.

Definition lower_char (c : ascii) : ascii :=
  let n := Ascii.nat_of_ascii c in
  if ((65 <=? n) && (n <=? 90))%nat then Ascii.ascii_of_nat (n + 32) else c.

Fixpoint lower (s : string) : string :=
  match s with
  | EmptyString => EmptyString
  | String c s' => String (lower_char c) (lower s')
  end.

(** The string prefixes; [Some true] for the literals that hold
    replacement fields (f-strings and t-strings). *)
Definition prefix_kind (w : string) : option bool :=
  let w := lower w in
  if existsb (String.eqb w) ["r"; "u"; "b"; "br"; "rb"] then Some false
  else if existsb (String.eqb w) ["f"; "fr"; "rf"; "t"; "tr"; "rt"] then Some true
  else None.

Inductive lex_result :=
| LexOk                          (** no unterminated literal *)
| LexUnterminated (line : nat)   (** a string literal left open at [line] *)
| LexUnknown.                    (** a replacement field this reading does not follow *)

Inductive lex_state :=
| LCode (word : string)          (** [word]: the identifier characters just read *)
| LComment
| LStr (q : ascii) (fields : bool)
| LTriple (q : ascii) (fields : bool)
| LField (q : ascii) (triple : bool).

(** A single-quoted literal ends at its quote and may not reach the end of
    its line; a backslash escapes the next character, a line end included;
    a triple-quoted literal ends at three quotes.  Inside the replacement
    field of an f-string this reading gives up on quotes, comments,
    backslashes, line ends and nested braces, where Python versions differ. *)
Fixpoint lex (st : lex_state) (line : nat) (s : string) : lex_result :=
  match s with
  | EmptyString =>
      match st with
      | LCode _ | LComment => LexOk
      | LStr _ _ | LTriple _ _ => LexUnterminated line
      | LField _ _ => LexUnknown
      end
  | String c rest =>
      match st with
      | LCode w =>
          if Ascii.eqb c newline then lex (LCode EmptyString) (S line) rest
          else if Ascii.eqb c "#"%char then lex LComment line rest
          else if Ascii.eqb c dq || Ascii.eqb c sq then
            let f := match prefix_kind w with Some b => b | None => false end in
            match rest with
            | String c2 rest1 =>
                if Ascii.eqb c2 c then
                  match rest1 with
                  | String c3 rest2 =>
                      if Ascii.eqb c3 c then lex (LTriple c f) line rest2
                      else lex (LCode EmptyString) line rest1
                  | EmptyString => LexOk
                  end
                else lex (LStr c f) line rest
            | EmptyString => LexUnterminated line
            end
          else if is_ident_char c then lex (LCode (w ++ String c EmptyString)) line rest
          else lex (LCode EmptyString) line rest
      | LComment =>
          if Ascii.eqb c newline then lex (LCode EmptyString) (S line) rest
          else lex LComment line rest
      | LStr q f =>
          if Ascii.eqb c newline then LexUnterminated line
          else if Ascii.eqb c backslash then
            match rest with
            | String c2 rest1 =>
                lex (LStr q f) (if Ascii.eqb c2 newline then S line else line) rest1
            | EmptyString => LexUnterminated line
            end
          else if Ascii.eqb c q then lex (LCode EmptyString) line rest
          else if f && Ascii.eqb c "{"%char then
            match rest with
            | String c2 rest1 =>
                if Ascii.eqb c2 "{"%char then lex (LStr q f) line rest1
                else lex (LField q false) line rest
            | EmptyString => LexUnterminated line
            end
          else lex (LStr q f) line rest
      | LTriple q f =>
          if Ascii.eqb c backslash then
            match rest with
            | String c2 rest1 =>
                lex (LTriple q f) (if Ascii.eqb c2 newline then S line else line) rest1
            | EmptyString => LexUnterminated line
            end
          else if Ascii.eqb c q then
            match rest with
            | String c2 rest1 =>
                if Ascii.eqb c2 q then
                  match rest1 with
                  | String c3 rest2 =>
                      if Ascii.eqb c3 q then lex (LCode EmptyString) line rest2
                      else lex (LTriple q f) line rest1
                  | EmptyString => LexUnterminated line
                  end
                else lex (LTriple q f) line rest
            | EmptyString => LexUnterminated line
            end
          else if f && Ascii.eqb c "{"%char then
            match rest with
            | String c2 rest1 =>
                if Ascii.eqb c2 "{"%char then lex (LTriple q f) line rest1
                else lex (LField q true) line rest
            | EmptyString => LexUnterminated line
            end
          else lex (LTriple q f) (if Ascii.eqb c newline then S line else line) rest
      | LField q triple =>
          if Ascii.eqb c "}"%char then
            lex (if triple then LTriple q true else LStr q true) line rest
          else if existsb (Ascii.eqb c) [dq; sq; "#"%char; backslash; newline; "{"%char]
          then LexUnknown
          else lex (LField q triple) line rest
      end
  end.

(** The line of the first unterminated string literal, if any: CPython
    rejects such a program with a [SyntaxError]. *)
Definition syntax_error_line (script : string) : option nat :=
  match lex (LCode EmptyString) 1 script with
  | LexUnterminated line => Some line
  | _ => None
  end.

(** The exit status and output of the interpreter. *)
Inductive py_exit := PyExit (code : Z) (stdout stderr : string).

Section Python.

(** What a program does once compiled. *)
Variable run : string -> py_exit.
(** The traceback printed for a [SyntaxError] at a line of the program. *)
Variable syntax_error : nat -> string.

(** [python -c script]: CPython compiles the whole program before running
    any of it, and a [SyntaxError] ends the process with exit status 1,
    nothing on stdout and the traceback on stderr. *)
Definition python_c (script : string) : py_exit :=
  match syntax_error_line script with
  | Some line => PyExit 1 EmptyString (syntax_error line)
  | None => run script
  end.

End Python.

End QueryScript.

(* ------------------------------------------------------------------ *)
(** ** The query agent's loop (src/unnamed/part_009, lines 45-136) *)

Module QueryLoop.

Record tool_call := mk_tool_call {
  tc_id : string;
  tc_name : string;          (** [tool_call.function.name] *)
  tc_arguments : string      (** [tool_call.function.arguments], JSON text *)
}.

(** [response.choices[0].message] *)
Record reply := mk_reply {
  r_content : option string;
  r_tool_calls : list tool_call
}.

(** The entries of [messages]. *)
Inductive msg :=
| MUser (content : string)
| MAssistant (r : reply)
| MTool (tool_call_id name content : string).

(** Python truthiness of [message.content]. *)
Definition content_truthy (c : option string) : option string :=
  match c with
  | Some s => if String.eqb s "" then None else Some s
  | None => None
  end.

Definition max_iterations : nat := 15.

Section Loop.

(** The tool arguments, tool results and the state of [DocpackTools]
    (the [documenter] package, outside this repository's web code). *)
Context {Args Res TS : Type}.
(** [json.loads]: [None] is a raised [JSONDecodeError]. *)
Variable parse_args : string -> option Args.
(** [tools.execute(tool_name, args)] *)
Variable execute : TS -> string -> Args -> TS * Res.
(** [json.dumps(result)] *)
Variable dumps : Res -> string.
(** [client.chat.completions.create(messages=...)]: the model's reply to
    the conversation sent. *)
Variable agent : list msg -> reply.

Inductive log_entry :=
| LIter (iteration : nat) (text : string)    (** [[Iteration i] ...] *)
| LTool (name : string) (args : Args).       (** [[Tool] name(args)] *)

Record state := mk_state {
  iteration : nat;
  tools : TS;
  messages : list msg;
  thinking_log : list log_entry;
  dispatched : list (string * Args);   (** tool executions, in order *)
  sent : list (list msg)               (** conversations sent to the model *)
}.

Inductive outcome :=
| OFinal (content : string) (log : list log_entry)  (** printed, [sys.exit(0)] *)
| OFallback (log : list log_entry)   (** ["Unable to find a complete answer"] *)
| OAbort.                            (** uncaught exception: exit status 1 *)

(** [for tool_call in message.tool_calls: ...]; [inr] is the state at which
    [json.loads] raised. *)
Fixpoint dispatch (s : state) (calls : list tool_call) : state + state :=
  match calls with
  | [] => inl s
  | tc :: rest =>
      match parse_args (tc_arguments tc) with
      | None => inr s
      | Some args =>
          let (ts', result) := execute (tools s) (tc_name tc) args in
          dispatch
            (mk_state (iteration s) ts'
               (messages s ++ [MTool (tc_id tc) (tc_name tc) (dumps result)])%list
               (thinking_log s ++ [LTool (tc_name tc) args])%list
               (dispatched s ++ [(tc_name tc, args)])%list
               (sent s))
            rest
      end
  end.

(** [while iteration < max_iterations: ...] (lines 73-136); [fuel] bounds the number of
    passes and is never the binding limit when it is [max_iterations]. *)
Fixpoint loop (fuel : nat) (s : state) : outcome * state :=
  match fuel with
  | O => (OFallback (thinking_log s), s)
  | S fuel' =>
      if Nat.ltb (iteration s) max_iterations then
        let it := S (iteration s) in
        let message := agent (messages s) in
        let log1 :=
          match content_truthy (r_content message) with
          | Some c => (thinking_log s ++ [LIter it (String.substring 0 200 c)])%list
          | None => thinking_log s
          end in
        let s1 := mk_state it (tools s) (messages s ++ [MAssistant message])%list
                    log1 (dispatched s) (sent s ++ [messages s])%list in
        match r_tool_calls message with
        | _ :: _ =>
            match dispatch s1 (r_tool_calls message) with
            | inl s2 => loop fuel' s2
            | inr s2 => (OAbort, s2)
            end
        | [] =>
            match content_truthy (r_content message) with
            | Some c => (OFinal c log1, s1)
            | None => (OFallback log1, s1)          (** [break] *)
            end
        end
      else (OFallback (thinking_log s), s)
  end.

Definition init (ts : TS) (prompt : string) : state :=
  mk_state 0 ts [MUser prompt] [] [] [].

(** [python -c] on the whole program: a [SyntaxError] ends the process with
    exit status 1 before any of it runs. *)
Definition run_query (ts : TS) (prompt : string) : outcome * state :=
  match QueryScript.syntax_error_line QueryScript.query_script with
  | Some _ => (OAbort, init ts prompt)
  | None => loop max_iterations (init ts prompt)
  end.

(** The calls of one turn executed one after another in the order
    received, each on the tool state the previous one left, their replies
    in the same order ([ms]) and the executions in the same order ([ds]). *)
Inductive sequential_turn : TS -> list tool_call -> TS -> list msg -> list (string * Args) -> Prop :=
| st_nil ts : sequential_turn ts [] ts [] []
| st_cons ts tc rest args ts1 result ts2 ms ds :
    parse_args (tc_arguments tc) = Some args ->
    execute ts (tc_name tc) args = (ts1, result) ->
    sequential_turn ts1 rest ts2 ms ds ->
    sequential_turn ts (tc :: rest) ts2
      (MTool (tc_id tc) (tc_name tc) (dumps result) :: ms)
      ((tc_name tc, args) :: ds).

(** Conversation [c'] is the one sent after [c]: the model's reply to [c]
    and the replies of all its tool calls, in order. *)
Definition next_conversation (c c' : list msg) : Prop :=
  exists ts ts' ms ds,
    sequential_turn ts (r_tool_calls (agent c)) ts' ms ds
    /\ c' = (c ++ MAssistant (agent c) :: ms)%list.

(** Loop invariant: consecutive conversations sent are linked by a full
    sequential turn, and so are the last one sent and the current one. *)
Definition chain_inv (s : state) : Prop :=
  (forall i a b, nth_error (sent s) i = Some a -> nth_error (sent s) (S i) = Some b ->
                 next_conversation a b)
  /\ (forall a, nth_error (sent s) (pred (length (sent s))) = Some a -> sent s <> [] ->
                next_conversation a (messages s)).

End Loop.

End QueryLoop.

(* ------------------------------------------------------------------ *)
(** ** [POST /api/docpack/[id]/query] (src/unnamed/part_009, lines 9-182) *)

Module QueryEndpoint.
Import Json Http.

Definition OUTPUT_DIR (home : string) : string :=
  Path.join_all [home; ".localdoc"; "outputs"].

(** The Python program passed to [python -c]. *)
Definition query_script : string := QueryScript.query_script.

(** [spawn('docker', args)] argument vector. *)
Definition docker_args (home cwd id query : string) : list string :=
  let docpackPath := Path.join (OUTPUT_DIR home) (id ++ ".docpack") in
  let envPath := Path.join_all [cwd; ".."; ".env"] in
  ["run"; "--rm"; "--env-file"; envPath; "-v"; docpackPath ++ ":/workspace";
   "-e"; "QUERY=" ++ query; "doctown:latest"; "python"; "-c"; query_script].

Definition nul : ascii := Ascii.ascii_of_nat 0.
Definition newline : ascii := Ascii.ascii_of_nat 10.

Fixpoint has_char (c : ascii) (s : string) : bool :=
  match s with
  | EmptyString => false
  | String c' s' => Ascii.eqb c c' || has_char c s'
  end.

(** Node's [spawn] validates its arguments synchronously and throws
    [ERR_INVALID_ARG_VALUE] on an argument holding a null byte. *)
Definition spawn_rejects (args : list string) : bool :=
  existsb (has_char nul) args.

(** The first of the child's ['close'] and ['error'] events. *)
Inductive proc_event :=
| PClose (code : option Z) (stdout stderr : string)
| PSpawnError (message : string).

Definition is_ws (c : ascii) : bool :=
  let n := Ascii.nat_of_ascii c in
  Nat.eqb n 32 || ((9 <=? n) && (n <=? 13))%nat.

Fixpoint trim_start (s : string) : string :=
  match s with
  | EmptyString => EmptyString
  | String c s' => if is_ws c then trim_start s' else s
  end.

Definition rev_string (s : string) : string :=
  string_of_list_ascii (rev (list_ascii_of_string s)).

(** [s.trim()] (ASCII white space). *)
Definition trim (s : string) : string :=
  rev_string (trim_start (rev_string (trim_start s))).

Fixpoint split_char_acc (c : ascii) (s cur : string) : list string :=
  match s with
  | EmptyString => [cur]
  | String c' s' =>
      if Ascii.eqb c c' then cur :: split_char_acc c s' EmptyString
      else split_char_acc c s' (cur ++ String c' EmptyString)
  end.

Definition last_line (s : string) : string :=
  last (split_char_acc newline s EmptyString) EmptyString.

Section Handler.

(** [JSON.parse] *)
Variable json_parse : string -> option jvalue.

(** The ['close'] handler. *)
Definition on_close (code : option Z) (stdout stderr : string) : response :=
  if (match code with Some 0%Z => true | _ => false end)
     && negb (String.eqb (trim stdout) "") then
    match json_parse (last_line (trim stdout)) with
    | Some result => json result
    | None =>
        json_status (JObj [("error", JStr "Failed to parse query result");
                           ("raw", JStr stdout)]) 500
    end
  else
    json_status (JObj [("error", JStr ("Query failed: " ++ stderr));
                       ("code", match code with Some z => JNum z | None => JNull end)])
                500.

(** The handler.  [body] is [request.json()] ([inl] carries the message of
    the [SyntaxError] it throws); [proc] is the first event of the
    [docker] child started with the given arguments. *)
Definition POST (home cwd id : string) (body : string + jvalue)
  (proc : list string -> proc_event) : outcome :=
  match body with
  | inl msg => HResp (json_status (error_body msg) 500)
  | inr v =>
      match get v "query" with
      | None =>
          (* destructuring [null]: a [TypeError], caught *)
          HResp (json_status
                   (error_body "Cannot destructure property 'query' of null") 500)
      | Some q =>
          match q with
          | Some (JStr query) =>
              if String.eqb query "" then
                HResp (json_status (error_body "Query is required") 400)
              else
                let args := docker_args home cwd id query in
                (* [return new Promise(...)] inside [try] without [await]:
                   a throw in the executor rejects the returned promise,
                   which the [catch] block never sees. *)
                if spawn_rejects args then
                  HUncaught "TypeError [ERR_INVALID_ARG_VALUE]: The argument 'args[7]' must be a string without null bytes"
                else
                  match proc args with
                  | PClose code out err => HResp (on_close code out err)
                  | PSpawnError m => HResp (json_status (error_body m) 500)
                  end
          | _ => HResp (json_status (error_body "Query is required") 400)
          end
      end
  end.

End Handler.

End QueryEndpoint.

(* ------------------------------------------------------------------ *)
(** ** [GET /api/docpacks] (src/unnamed/part_009, lines 184-289) *)

Module ListEndpoint.
Import Json Http.

(** What the handler observes of [~/.localdoc/outputs].  [countFiles] and
    [getDirSize] catch every error of their own (the source wraps the first
    in [try]/[catch] defaulting to 0, the second catches internally), so
    they are observed as plain numbers. *)
Record outputs := mk_outputs {
  readdir_outputs : option (list string);   (** [readdir(OUTPUT_DIR)]; [None]: throws *)
  read_manifest : string -> FS.read_result; (** [readFile(<dir>/docpack.json)] *)
  stat_mtime : string -> option string;     (** [stat(<dir>).mtime]; [None]: throws *)
  count_files : string -> N;                (** [countFiles(<dir>/files)] or 0 *)
  dir_size : string -> N                    (** [getDirSize(<dir>)] *)
}.

Fixpoint ends_with (suffix s : string) : bool :=
  String.eqb s suffix ||
  match s with
  | EmptyString => false
  | String _ s' => ends_with suffix s'
  end.

(** [s.replace(pat, '')] with a string pattern: the first occurrence. *)
Fixpoint remove_first (pat s : string) : string :=
  if String.prefix pat s then String.substring (String.length pat) (String.length s) s
  else match s with
       | EmptyString => EmptyString
       | String c s' => String c (remove_first pat s')
       end.

Definition N_to_string (n : N) : string := NilEmpty.string_of_uint (N.to_uint n).

(** [(bytes / d).toFixed(1)]: the quotient is exact, ties round up. *)
Definition to_fixed1 (bytes d : N) : string :=
  let tenths := ((20 * bytes + d) / (2 * d))%N in
  N_to_string (tenths / 10) ++ "." ++ N_to_string (tenths mod 10).

Definition formatSize (bytes : N) : string :=
  if (bytes <? 1024)%N then N_to_string bytes ++ " B"
  else if (bytes <? 1024 * 1024)%N then to_fixed1 bytes 1024 ++ " KB"
  else to_fixed1 bytes (1024 * 1024) ++ " MB".

Section Handler.

(** [JSON.parse] *)
Variable json_parse : string -> option jvalue.
(** [new Date(x).toLocaleDateString()] of [manifest.metadata?.created]
    ([inl]) or of the directory's [mtime] ([inr]). *)
Variable locale_date : jvalue + string -> string.

(** The [async (dir) => ...] callback; [None] is its [return null]. *)
Definition docpack_entry (o : outputs) (dir : string) : option jvalue :=
  match read_manifest o dir with
  | FS.RErr _ => None
  | FS.ROk manifestData =>
      match json_parse manifestData with
      | None => None
      | Some manifest =>
          match stat_mtime o dir with
          | None => None
          | Some mtime =>
              let fileCount := count_files o dir in
              let totalSize := dir_size o dir in
              match get manifest "name", get manifest "description",
                    get manifest "metadata" with
              | Some nm, Some ds, Some md =>
                  let created_src :=
                    match md with
                    | None | Some JNull => None
                    | Some m => match get m "created" with
                                | Some c => c
                                | None => None
                                end
                    end in
                  let created :=
                    if truthy created_src then
                      match created_src with
                      | Some c => locale_date (inl c)
                      | None => locale_date (inr mtime)
                      end
                    else locale_date (inr mtime) in
                  Some (JObj
                    [("id", JStr (remove_first ".docpack" dir));
                     ("name", if truthy nm then match nm with Some v => v | None => JNull end
                              else JStr "Untitled");
                     ("description", if truthy ds then match ds with Some v => v | None => JNull end
                                     else JStr "No description");
                     ("created", JStr created);
                     ("fileCount", JNum (Z.of_N fileCount));
                     ("size", JStr (formatSize totalSize))])
              | _, _, _ => None   (* [TypeError] on a [null] manifest *)
              end
          end
      end
  end.

Definition GET (o : outputs) : outcome :=
  match readdir_outputs o with
  | None => HResp (json (JObj [("docpacks", JArr [])]))
  | Some files =>
      let docpackDirs := filter (ends_with ".docpack") files in
      let docpacks := map (docpack_entry o) docpackDirs in
      let validDocpacks := rev (flat_map (fun d => match d with
                                                    | Some v => [v]
                                                    | None => []
                                                    end) docpacks) in
      HResp (json (JObj [("docpacks", JArr validDocpacks)]))
  end.

End Handler.

End ListEndpoint.

(* ------------------------------------------------------------------ *)
(** ** [buildFileTree] (src/website/src/routes/api/docpack/[id]/+server.ts) *)

Module FileTree.

(** A [Dirent] from [readdir(dir, { withFileTypes: true })]. *)
Record dirent := mk_dirent { d_name : string; d_is_directory : bool }.

Inductive node_type := TFile | TDirectory.

Inductive file_node := FileNode {
  name : string;
  path : string;
  ntype : node_type;
  children : option (list file_node)
}.

Definition node_type_eqb (a b : node_type) : bool :=
  match a, b with
  | TFile, TFile | TDirectory, TDirectory => true
  | _, _ => false
  end.

Section Build.

(** [String.prototype.localeCompare], read as its sign. *)
Variable localeCompare : string -> string -> comparison.

(** The comparator passed to [nodes.sort]. *)
Definition compare_nodes (a b : file_node) : comparison :=
  if node_type_eqb (ntype a) (ntype b) then localeCompare (name a) (name b)
  else match ntype a with TDirectory => Lt | TFile => Gt end.

(** [Array.prototype.sort] is stable; with a consistent comparator every
    stable sort gives this insertion sort's result. *)
Fixpoint insert (x : file_node) (l : list file_node) : list file_node :=
  match l with
  | [] => [x]
  | y :: l' =>
      match compare_nodes x y with
      | Lt => x :: y :: l'
      | _ => y :: insert x l'
      end
  end.

Definition sort (l : list file_node) : list file_node :=
  fold_left (fun acc x => insert x acc) l [].

(** [readdir(dir, ...)]: [None] when it throws. *)
Variable readdir : string -> option (list dirent).

(** One iteration of the [for] loop: the node pushed for [item], with
    [build] the recursive call; [None]: the call threw. *)
Definition item_node (build : string -> string -> option (list file_node))
  (dir basePath : string) (item : dirent) : option file_node :=
  let itemPath := Path.join dir (d_name item) in
  let relativePath :=
    if String.eqb basePath "" then d_name item
    else basePath ++ "/" ++ d_name item in
  if d_is_directory item then
    match build itemPath relativePath with
    | None => None
    | Some ch => Some (FileNode (d_name item) relativePath TDirectory (Some ch))
    end
  else Some (FileNode (d_name item) relativePath TFile None).

(** The [for] loop: [nodes], or [None] once an iteration throws. *)
Fixpoint collect (build : string -> string -> option (list file_node))
  (dir basePath : string) (items : list dirent) : option (list file_node) :=
  match items with
  | [] => Some []
  | item :: rest =>
      match item_node build dir basePath item with
      | None => None
      | Some n => option_map (cons n) (collect build dir basePath rest)
      end
  end.

(** The recursion of [buildFileTree] follows the directory tree; [fuel]
    bounds its depth.  [None]: an exception (or a tree deeper than [fuel]). *)
Fixpoint buildFileTree (fuel : nat) (dir basePath : string)
  : option (list file_node) :=
  match fuel with
  | O => None
  | S fuel' =>
      match readdir dir with
      | None => None
      | Some items => option_map sort (collect (buildFileTree fuel') dir basePath items)
      end
  end.

End Build.

Section Order.

Variable localeCompare : string -> string -> comparison.

Definition name_le (a b : file_node) : Prop := localeCompare (name a) (name b) <> Gt.

(** One level of the tree in the viewer's order: directories, then files,
    each group ascending by [localeCompare]. *)
Definition level_ok (l : list file_node) : Prop :=
  exists ds fs, l = (ds ++ fs)%list
    /\ Forall (fun n => ntype n = TDirectory) ds /\ Forall (fun n => ntype n = TFile) fs
    /\ Sorted name_le ds /\ Sorted name_le fs.

(** [level_ok] at every level down to depth [k]. *)
Fixpoint sorted_levels (k : nat) (l : list file_node) : Prop :=
  level_ok l /\
  match k with
  | O => True
  | S k' => forall n ch, In n l -> children n = Some ch -> sorted_levels k' ch
  end.

End Order.

(** A node as [buildFileTree] records it below [basePath]: its [path] is its
    name prefixed by the parent's path, files carry no [children] and
    directories do, with the same shape below. *)
Fixpoint node_paths_ok (basePath : string) (n : file_node) : bool :=
  match n with
  | FileNode nm p t ch =>
      String.eqb p (if String.eqb basePath "" then nm else basePath ++ "/" ++ nm) &&
      match t, ch with
      | TFile, None => true
      | TDirectory, Some c => forallb (node_paths_ok p) c
      | _, _ => false
      end
  end.

End FileTree.

(* ------------------------------------------------------------------ *)
(** ** [GET /api/docpack/[id]]
    (src/website/src/routes/api/docpack/[id]/+server.ts, lines 47-106) *)

Module ViewerEndpoint.
Import Json Http FileTree.

(** [join(homedir(), '.localdoc', 'docpacks')] *)
Definition OUTPUT_DIR (home : string) : string :=
  Path.join_all [home; ".localdoc"; "docpacks"].

Definition docpack_path (home id : string) : string :=
  Path.join (OUTPUT_DIR home) (id ++ ".docpack").

(** What the handler observes of the disk. *)
Record io := mk_io {
  stat_size : string -> option N;            (** [stat(p).size]; [None]: throws *)
  read_text : string -> FS.read_result;      (** [readFile(p, 'utf-8')] *)
  read_dir : string -> option (list dirent)  (** [readdir(p)]; [None]: throws *)
}.

(** A [FileNode] as [json] serialises it: files have no [children] key. *)
Fixpoint node_json (n : file_node) : jvalue :=
  match n with
  | FileNode nm p t ch =>
      JObj ([("name", JStr nm); ("path", JStr p);
             ("type", JStr (match t with TFile => "file" | TDirectory => "directory" end))]
            ++ match ch with
               | Some l => [("children", JArr (map node_json l))]
               | None => []
               end)
  end.

(** [Promise.all(outputFiles.map(async (file) => ...))]: the entries in
    order, or [None] when one [stat] rejects. *)
Fixpoint output_entries (o : io) (outputDir : string) (files : list string)
  : option (list jvalue) :=
  match files with
  | [] => Some []
  | file :: rest =>
      match stat_size o (Path.join outputDir file) with
      | None => None
      | Some size =>
          option_map (cons (JObj [("name", JStr file); ("path", JStr file);
                                  ("size", JNum (Z.of_N size))]))
                     (output_entries o outputDir rest)
      end
  end.

Section Handler.

(** [JSON.parse]; [inl] carries the message of the [SyntaxError]. *)
Variable json_parse : string -> string + jvalue.
Variable localeCompare : string -> string -> comparison.
(** The depth bound of [buildFileTree]. *)
Variable fuel : nat.

Definition GET (o : io) (home id : string) : response :=
  let docpackPath := docpack_path home id in
  match stat_size o docpackPath with
  | None => json_status (error_body ("Docpack not found: " ++ id)) 404
  | Some _ =>
      match read_text o (Path.join docpackPath "docpack.json") with
      | FS.RErr msg => json_status (error_body msg) 500
      | FS.ROk manifestData =>
          match json_parse manifestData with
          | inl msg => json_status (error_body msg) 500
          | inr manifest =>
              let files :=
                match buildFileTree localeCompare (read_dir o) fuel
                        (Path.join docpackPath "files") "" with
                | Some l => l
                | None => []
                end in
              let outputDir := Path.join docpackPath "output" in
              let outputs :=
                match read_dir o outputDir with
                | None => []
                | Some items =>
                    match output_entries o outputDir (map d_name items) with
                    | Some l => l
                    | None => []
                    end
                end in
              json (JObj [("manifest", manifest); ("files", JArr (map node_json files));
                          ("outputs", JArr outputs)])
          end
      end
  end.

End Handler.

End ViewerEndpoint.

(* ------------------------------------------------------------------ *)
(** ** [POST /api/upload] (src/unnamed/part_009, lines 291-412) *)

Module UploadEndpoint.
Import Json Http QueryEndpoint.

Definition TEMP_DIR (home : string) : string :=
  Path.join_all [home; ".localdoc"; "temp"].

Definition OUTPUT_DIR (home : string) : string :=
  Path.join_all [home; ".localdoc"; "outputs"].

(** [formData.get('file')]: absent ([null]), a text field, or a [File]. *)
Inductive form_value :=
| FAbsent
| FText (value : string)
| FFile (name : string).

(** The three child processes; they report a failed exit differently. *)
Inductive job := JUnzip | JIngest | JDocumenter.

Inductive action :=
| AMkdir (path : string)           (** [mkdir(path, { recursive: true })] *)
| AWriteFile (path : string)       (** [writeFile(path, buffer)] *)
| ASpawn (j : job) (command : string) (args : list string)
    (cwd : option string) (env_file : option string).

(** The actions after validation, in program order. *)
Definition pipeline (home cwd uploadName docpackId : string) : list action :=
  let zipPath := Path.join (TEMP_DIR home) (docpackId ++ ".zip") in
  let extractPath := Path.join (TEMP_DIR home) docpackId in
  let docpackPath := Path.join (OUTPUT_DIR home) (uploadName ++ "-" ++ docpackId ++ ".docpack") in
  let cliPath := Path.join_all [cwd; ".."; "cli"] in
  let envPath := Path.join_all [cwd; ".."; ".env"] in
  [AMkdir (TEMP_DIR home); AMkdir (OUTPUT_DIR home); AWriteFile zipPath; AMkdir extractPath;
   ASpawn JUnzip "unzip" ["-q"; zipPath; "-d"; extractPath] None None;
   ASpawn JIngest "cargo"
     ["run"; "--"; "ingest"; extractPath; "--out"; docpackPath; "--name"; uploadName]
     (Some cliPath) None;
   ASpawn JDocumenter "cargo" ["run"; "--"; "run"; docpackPath; "--image"; "doctown:latest"]
     (Some cliPath) (Some envPath)].

(** A template literal's rendering of the exit code ([null] after a signal). *)
Definition code_string (code : option Z) : string :=
  match code with
  | Some z => NilEmpty.string_of_int (Z.to_int z)
  | None => "null"
  end.

(** The [Error] a ['close'] with a non-zero code rejects with. *)
Definition close_error (j : job) (code : option Z) (stderr : string) : string :=
  match j with
  | JUnzip => "Unzip failed with code " ++ code_string code
  | JIngest => "Ingest failed: " ++ stderr
  | JDocumenter => "Documenter failed: " ++ stderr
  end.

Section Handler.

(** The settlement of [mkdir] and [writeFile]: [Some m] rejects with [m]. *)
Variable fs_result : action -> option string.
(** The first of the ['close'] and ['error'] events of a started child. *)
Variable proc : action -> proc_event.
(** The message of the [TypeError] [spawn] throws on an argument vector
    holding a null byte. *)
Variable invalid_arg_message : list string -> string.

(** One awaited step: [None] resolves, [Some m] rejects with message [m]
    (a throw inside a [Promise] executor rejects that promise). *)
Definition perform (a : action) : option string :=
  match a with
  | AMkdir _ | AWriteFile _ => fs_result a
  | ASpawn j _ args _ _ =>
      if spawn_rejects args then Some (invalid_arg_message args)
      else
        match proc a with
        | PClose code _ err =>
            match code with
            | Some 0%Z => None
            | _ => Some (close_error j code err)
            end
        | PSpawnError m => Some m
        end
  end.

(** The steps attempted, up to the first rejection, and its message. *)
Fixpoint run_actions (l : list action) : list action * option string :=
  match l with
  | [] => ([], None)
  | a :: rest =>
      match perform a with
      | Some m => ([a], Some m)
      | None => let (done, r) := run_actions rest in (a :: done, r)
      end
  end.

(** The handler: [form] is [request.formData()] ([inl]: the message it
    rejects with) read at ['file']; [docpackId] is
    [randomBytes(8).toString('hex')].  The result pairs the response with
    the actions attempted. *)
Definition POST (home cwd : string) (form : string + form_value) (docpackId : string)
  : response * list action :=
  match form with
  | inl msg => (json_status (error_body msg) 500, [])
  | inr FAbsent => (json_status (error_body "No file uploaded") 400, [])
  | inr (FText v) =>
      if String.eqb v "" then (json_status (error_body "No file uploaded") 400, [])
      else
        (* [file.name] is [undefined] on a string *)
        (json_status (error_body "Cannot read properties of undefined (reading 'endsWith')") 500, [])
  | inr (FFile name) =>
      if negb (ListEndpoint.ends_with ".zip" name) then
        (json_status (error_body "Only .zip files are allowed") 400, [])
      else
        let uploadName := ListEndpoint.remove_first ".zip" name in
        match run_actions (pipeline home cwd uploadName docpackId) with
        | (done, None) =>
            (json (JObj [("success", JBool true);
                         ("docpackId", JStr (uploadName ++ "-" ++ docpackId));
                         ("message", JStr "Documentation generated successfully")]), done)
        | (done, Some m) => (json_status (error_body m) 500, done)
        end
  end.

End Handler.

End UploadEndpoint.

(* ------------------------------------------------------------------ *)
(** ** The viewer page's file list (src/unnamed/part_010, lines 123-131) *)

Module ViewerPage.
Import FileTree.

(** An element of [renderFileTree]'s result: [{ node, level, children }]. *)
Inductive rendered := Rendered (node : file_node) (level : nat) (children : list rendered).

Fixpoint render_node (level : nat) (n : file_node) : rendered :=
  match n with
  | FileNode _ _ t ch =>
      Rendered n level
        (match t, ch with
         | TDirectory, Some c => map (render_node (S level)) c
         | _, _ => []
         end)
  end.

Definition renderFileTree (nodes : list file_node) (level : nat) : list rendered :=
  map (render_node level) nodes.

(** The values [Array.prototype.flat] meets: arrays, which it flattens, and
    the objects [renderFileTree] builds, which it keeps as they are. *)
Inductive js_value :=
| JSArray (l : list js_value)
| JSObject (r : rendered).

(** [[v].flat(Infinity)] *)
Fixpoint flat_value (v : js_value) : list js_value :=
  match v with
  | JSArray l => flat_map flat_value l
  | JSObject r => [JSObject r]
  end.

(** [renderFileTree(data.files).flat(Infinity)] *)
Definition flatTree (files : list file_node) : list js_value :=
  flat_map flat_value (map JSObject (renderFileTree files 0)).

End ViewerPage.

(* ------------------------------------------------------------------ *)
(** ** The documenter core: sandbox, tools, output writer, task loop *)

Module Core.

(** Modelled from the spec: [documenter/sandbox.py] (Sandbox, section 4.1),
    not among this repository's sources here.  The error taxonomy of
    section 7, with the output writer's refusal to overwrite. *)
Inductive error :=
| PathEscape
| QuotaExceeded
| TimeExceeded
| UnknownTool
| ToolNotPermitted
| AlreadyExists
| IOError (message : string).

Inductive res (A : Type) :=
| Ok (a : A)
| Fail (e : error).
Arguments Ok {A} a.
Arguments Fail {A} e.

(** Modelled from the spec: the manifest's [environment] (section 6). *)
Record manifest := mk_manifest {
  tools : list string;
  max_file_reads : nat;
  max_seconds : nat
}.

(** Modelled from the spec: [SandboxState] (section 3). *)
Record sandbox_state := mk_sandbox_state {
  reads : nat;
  bytes_written : nat
}.

(** Modelled from the spec: canonicalisation follows symbolic links at the
    final component; a link cycle fails. *)
Fixpoint canonical_fuel (fuel : nat) (t : FS.fs) (p : string) : option string :=
  match fuel with
  | O => None
  | S fuel' =>
      match FS.lookup t p with
      | Some (FS.NLink target) =>
          canonical_fuel fuel' t
            (if Path.is_absolute target then Path.normalize target
             else Path.join (Path.dirname p) target)
      | _ => Some p
      end
  end.

Definition canonical (t : FS.fs) (p : string) : option string :=
  canonical_fuel 41 t p.

(** Modelled from the spec: [Sandbox.resolve] — canonicalise the requested
    path relative to [root] (an absolute path overrides it), reject when
    the canonical form lies outside [root]. *)
Definition resolve (t : FS.fs) (root p : string) : res string :=
  let candidate := if Path.is_absolute p then Path.normalize p
                   else Path.join root p in
  match canonical t candidate with
  | Some c => if Path.within root c then Ok c else Fail PathEscape
  | None => Fail PathEscape
  end.

(** Modelled from the spec: [chargeRead()] fails with [QuotaExceeded] once
    [reads consumed >= max_reads]. *)
Definition chargeRead (m : manifest) (s : sandbox_state) : res sandbox_state :=
  if Nat.leb (max_file_reads m) (reads s) then Fail QuotaExceeded
  else Ok (mk_sandbox_state (S (reads s)) (bytes_written s)).

Fixpoint update (t : FS.fs) (p : string) (n : FS.node) : FS.fs :=
  match t with
  | [] => [(p, n)]
  | (q, n') :: t' =>
      if String.eqb q p then (q, n) :: t' else (q, n') :: update t' p n
  end.

(** Modelled from the spec: the Output Writer (section 4.5) —
    [write(relativePath, content) -> Ack | fails(PathEscape | QuotaExceeded)],
    confined to [out_root] by [resolve], refusing to replace an existing
    file unless [last_write_wins] is requested, and charging the written
    bytes against [max_bytes]. *)
Definition write_output (last_write_wins : bool) (max_bytes : nat)
  (out_root : string) (t : FS.fs) (s : sandbox_state) (p content : string)
  : res (FS.fs * sandbox_state) :=
  match resolve t out_root p with
  | Fail e => Fail e
  | Ok target =>
      match FS.lookup t target with
      | Some FS.NDir => Fail (IOError "EISDIR")
      | Some (FS.NFile _) | Some (FS.NLink _) =>
          if last_write_wins then
            if Nat.ltb max_bytes (bytes_written s + String.length content)
            then Fail QuotaExceeded
            else Ok (update t target (FS.NFile content),
                     mk_sandbox_state (reads s) (bytes_written s + String.length content))
          else Fail AlreadyExists
      | None =>
          if Nat.ltb max_bytes (bytes_written s + String.length content)
          then Fail QuotaExceeded
          else Ok (update t target (FS.NFile content),
                   mk_sandbox_state (reads s) (bytes_written s + String.length content))
      end
  end.

(** Modelled from the spec: the tool surface (section 6), as the closed
    variant set of section 9, for the two tools the run model needs. *)
Inductive tool_call :=
| CReadFile (path : string)
| CWriteOutput (path content : string).

Inductive tool_result :=
| TOk (payload : string)
| TErr (e : error).

Definition tool_name (c : tool_call) : string :=
  match c with
  | CReadFile _ => "read_file"
  | CWriteOutput _ _ => "write_output"
  end.

(** Run-scoped state: the sandbox counters, the bundle's files and the
    number of times the clock has been read. *)
Record run_state := mk_run_state {
  sandbox : sandbox_state;
  files : FS.fs;
  ticks : nat
}.

(** Modelled from the spec: the agent's answer in one iteration (4.4). *)
Inductive agent_turn :=
| ACalls (calls : list tool_call)
| AFinal (content : string).

(** Modelled from the spec: the conversation (section 3) — the task's
    mission, then the agent's turns and the tool results, in order. *)
Inductive entry :=
| EMission (text : string)
| EAgent (turn : agent_turn)
| EResult (name : string) (result : tool_result).

(** The agent's turns in a conversation. *)
Definition turns (conv : list entry) : nat :=
  length (filter (fun e => match e with EAgent _ => true | _ => false end) conv).

(** The tool results in a conversation, in order. *)
Definition results (conv : list entry) : list tool_result :=
  flat_map (fun e => match e with EResult _ tr => [tr] | _ => [] end) conv.

(** Modelled from the spec: the run result's per-task status (section 6). *)
Inductive task_status :=
| Completed
| IncompleteByIterationLimit
| ResourceExhausted
| SkippedDueToDeadline.

Section Dispatch.

Variable m : manifest.
Variable root out_root : string.
Variable max_bytes : nat.
Variable last_write_wins : bool.
(** The run's elapsed seconds at the [n]-th reading of the clock. *)
Variable clock : nat -> nat.
(** The run-level deadline the caller supplies (section 9), in seconds. *)
Variable run_deadline : nat.

Definition read_clock (r : run_state) : nat * run_state :=
  (clock (ticks r), mk_run_state (sandbox r) (files r) (S (ticks r))).

(** Modelled from the spec: [checkDeadline()] fails with [TimeExceeded]
    once elapsed time passes [max_seconds]. *)
Definition checkDeadline (r : run_state) : res unit * run_state :=
  let (now, r') := read_clock r in
  (if Nat.ltb (max_seconds m) now then Fail TimeExceeded else Ok tt, r').

(** Modelled from the spec: the run-level deadline check (section 5);
    [true] once the deadline is reached. *)
Definition run_deadline_check (r : run_state) : bool * run_state :=
  let (now, r') := read_clock r in (Nat.leb run_deadline now, r').

(** Modelled from the spec: [dispatch(name, args) -> ToolResult]
    (section 4.2): permission, then [resolve], [chargeRead] and the deadline
    check in the order section 4.1 lists them, then I/O; a failed check
    leaves the counters and the files as they were. *)
Definition dispatch (r : run_state) (c : tool_call) : tool_result * run_state :=
  if negb (existsb (String.eqb (tool_name c)) (tools m)) then
    (TErr ToolNotPermitted, r)
  else
    match c with
    | CReadFile p =>
        match resolve (files r) root p with
        | Fail e => (TErr e, r)
        | Ok target =>
            match chargeRead m (sandbox r) with
            | Fail e => (TErr e, r)
            | Ok s' =>
                match checkDeadline r with
                | (Fail e, r1) => (TErr e, r1)
                | (Ok _, r1) =>
                    match FS.read_file (files r) target with
                    | FS.ROk content => (TOk content, mk_run_state s' (files r) (ticks r1))
                    | FS.RErr msg => (TErr (IOError msg), mk_run_state s' (files r) (ticks r1))
                    end
                end
            end
        end
    | CWriteOutput p content =>
        match checkDeadline r with
        | (Fail e, r1) => (TErr e, r1)
        | (Ok _, r1) =>
            match write_output last_write_wins max_bytes out_root (files r)
                    (sandbox r) p content with
            | Fail e => (TErr e, r1)
            | Ok (t', s') => (TOk "ok", mk_run_state s' t' (ticks r1))
            end
        end
    end.

Definition is_resource_failure (tr : tool_result) : bool :=
  match tr with
  | TErr QuotaExceeded | TErr TimeExceeded => true
  | _ => false
  end.

(** How the calls of one turn ended: all dispatched, a second consecutive
    quota or deadline failure, or the run-level deadline reached. *)
Inductive calls_end := CallsDone | CallsExhausted | CallsDeadline.

(** Modelled from the spec: the calls of one turn, dispatched in order,
    each result appended to the conversation; the run-level deadline is
    consulted before each dispatch; a quota or deadline failure is surfaced
    as a result, and a second consecutive one forces [ResourceExhausted].
    [consecutive] counts the resource failures since the last other
    result. *)
Fixpoint run_calls (consecutive : nat) (r : run_state) (conv : list entry)
  (calls : list tool_call) : calls_end * nat * run_state * list entry :=
  match calls with
  | [] => (CallsDone, consecutive, r, conv)
  | c :: rest =>
      let (reached, r0) := run_deadline_check r in
      if reached then (CallsDeadline, consecutive, r0, conv)
      else
        let (tr, r') := dispatch r0 c in
        let conv' := (conv ++ [EResult (tool_name c) tr])%list in
        if is_resource_failure tr then
          if Nat.leb 1 consecutive then (CallsExhausted, S consecutive, r', conv')
          else run_calls 1 r' conv' rest
        else run_calls 0 r' conv' rest
  end.

(** Modelled from the spec: the per-task loop (section 4.4) with its
    iteration ceiling [fuel]; each iteration consults the run-level
    deadline, then sends the conversation to the agent.  Once the deadline
    is reached the task ends [SkippedDueToDeadline]. *)
Fixpoint task_loop (fuel : nat) (consecutive : nat) (agent : list entry -> agent_turn)
  (r : run_state) (conv : list entry) : task_status * run_state * list entry :=
  match fuel with
  | O => (IncompleteByIterationLimit, r, conv)
  | S fuel' =>
      let (reached, r0) := run_deadline_check r in
      if reached then (SkippedDueToDeadline, r0, conv)
      else
        let turn := agent conv in
        let conv1 := (conv ++ [EAgent turn])%list in
        match turn with
        | AFinal _ => (Completed, r0, conv1)
        | ACalls cs =>
            match run_calls consecutive r0 conv1 cs with
            | (CallsExhausted, _, r', conv') => (ResourceExhausted, r', conv')
            | (CallsDeadline, _, r', conv') => (SkippedDueToDeadline, r', conv')
            | (CallsDone, k, r', conv') => task_loop fuel' k agent r' conv'
            end
        end
  end.

Definition default_max_iterations : nat := 15.

(** A task: a fresh conversation seeded with its mission. *)
Definition run_task (max_iterations : nat) (agent : list entry -> agent_turn)
  (mission : string) (r : run_state) : task_status * run_state * list entry :=
  task_loop max_iterations 0 agent r [EMission mission].

(** The spec's reading of one turn: the calls one after another in the
    order received, each dispatched (after the run-level deadline check) on
    the state the previous one left, their results in the same order. *)
Inductive in_order : run_state -> list tool_call -> list entry -> run_state -> Prop :=
| io_nil r : in_order r [] [] r
| io_cons r c rest r0 tr r1 es r2 :
    run_deadline_check r = (false, r0) ->
    dispatch r0 c = (tr, r1) ->
    in_order r1 rest es r2 ->
    in_order r (c :: rest) (EResult (tool_name c) tr :: es) r2.

End Dispatch.

End Core.

(* ------------------------------------------------------------------ *)
(** ** The task graph *)

Module TaskGraph.

(** Modelled from the spec: [TaskSpec] (section 3), the fields the
    ordering reads. *)
Record task_spec := mk_task {
  id : string;
  depends_on : list string
}.

(** Modelled from the spec: the task graph's failure (section 4.3), with
    the ids of the tasks that could not be ordered. *)
Inductive order_error := CyclicDependency (stuck : list string).

Definition mem (x : string) (l : list string) : bool := existsb (String.eqb x) l.

Definition ready (done : list string) (t : task_spec) : bool :=
  forallb (fun d => mem d done) (depends_on t).

(** The first ready task in declaration order, and the others. *)
Fixpoint pick (done : list string) (pending : list task_spec)
  : option (task_spec * list task_spec) :=
  match pending with
  | [] => None
  | t :: rest =>
      if ready done t then Some (t, rest)
      else match pick done rest with
           | Some (t', rest') => Some (t', t :: rest')
           | None => None
           end
  end.

(** Modelled from the spec: the topological sort of section 4.3 — a total
    order consistent with [depends_on], ties among ready tasks broken by
    declaration order, [CyclicDependency] when no pending task is ready. *)
Fixpoint topo (fuel : nat) (done : list string) (pending : list task_spec)
  : list task_spec + order_error :=
  match pending with
  | [] => inl []
  | _ :: _ =>
      match fuel with
      | O => inr (CyclicDependency (map id pending))
      | S fuel' =>
          match pick done pending with
          | None => inr (CyclicDependency (map id pending))
          | Some (t, rest) =>
              match topo fuel' (done ++ [id t])%list rest with
              | inl order => inl (t :: order)
              | inr e => inr e
              end
          end
      end
  end.

Definition execution_order (tasks : list task_spec) : list task_spec + order_error :=
  topo (length tasks) [] tasks.

(** Modelled from the spec: a run executes tasks only once the whole graph
    is validated (section 7: a cycle aborts the run before it starts);
    [exec] runs one task. *)
Definition run {R : Type} (exec : task_spec -> R) (tasks : list task_spec)
  : list (string * R) + order_error :=
  match execution_order tasks with
  | inl order => inl (map (fun t => (id t, exec t)) order)
  | inr e => inr e
  end.

(** The spec's ordering rule, read from its words: repeatedly take the
    first task, in declaration order, whose dependencies are all done. *)
Inductive kahn_order : list string -> list task_spec -> list task_spec -> Prop :=
| ko_nil (done : list string) : kahn_order done [] []
| ko_step (done : list string) (pre : list task_spec) (t : task_spec)
    (post order : list task_spec) :
    Forall (fun u => ready done u = false) pre -> ready done t = true ->
    kahn_order (done ++ [id t])%list (pre ++ post)%list order ->
    kahn_order done (pre ++ t :: post)%list (t :: order).

(** [a] depends on [b] in the declared graph. *)
Definition edge (tasks : list task_spec) (a b : string) : Prop :=
  exists t, In t tasks /\ id t = a /\ In b (depends_on t).

End TaskGraph.

(* ------------------------------------------------------------------ *)
(** ** Concrete inputs *)

Module Fixtures.

(** A symbolic link inside the docpack to a file outside it. *)
Definition escape_fs : FS.fs :=
  [("/home/u/.localdoc/outputs/x.docpack/files/notes.md", FS.NLink "/etc/passwd");
   ("/etc/passwd", FS.NFile "root:x:0:0:root:/root:/bin/bash")].

(** The name é spelt precomposed (U+00E9) and decomposed (e, U+0301), in
    UTF-8. *)
Definition e_acute_nfc : string :=
  String (Ascii.ascii_of_nat 195) (String (Ascii.ascii_of_nat 169) EmptyString).
Definition e_acute_nfd : string :=
  String "e"%char (String (Ascii.ascii_of_nat 204) (String (Ascii.ascii_of_nat 129) EmptyString)).

(** A [localeCompare]: ECMA-262 requires it to return 0 for canonically
    equivalent strings, as the two spellings of é; other names compare by
    code units. *)
Definition nfc_key (s : string) : string :=
  if String.eqb s e_acute_nfd then e_acute_nfc else s.
Definition locale_nfc (a b : string) : comparison := String.compare (nfc_key a) (nfc_key b).

(** A directory [/d] holding two files, listed by [readdir] in the order given. *)
Definition listing (first second : string) (d : string) : option (list FileTree.dirent) :=
  if String.eqb d "/d" then
    Some [FileTree.mk_dirent first false; FileTree.mk_dirent second false]
  else None.

(** A bundle with one file, a manifest allowing two reads and 60 seconds, a
    clock that stays at 0, and agents that read the file once per
    iteration, three or four times, then answer. *)
Definition core_fs : FS.fs := [("/b/a.md", FS.NFile "alpha")].
Definition core_manifest : Core.manifest := Core.mk_manifest ["read_file"; "write_output"] 2 60.
Definition core_start : Core.run_state :=
  Core.mk_run_state (Core.mk_sandbox_state 0 0) core_fs 0.
Definition no_time_passes (n : nat) : nat := 0.
Definition reads_then_final (n : nat) (conv : list Core.entry) : Core.agent_turn :=
  if Nat.ltb (Core.turns conv) n then Core.ACalls [Core.CReadFile "a.md"] else Core.AFinal "done".

End Fixtures.

(* ================================================================== *)
(** * Properties *)

(* ------------------------------------------------------------------ *)
(** ** Strings and paths *)

Module PathFacts.
Import Path.

Lemma str_app_assoc (a b c : string) : (a ++ b) ++ c = a ++ (b ++ c).
Proof. induction a as [|x a IH]; simpl; [reflexivity | now rewrite IH]. Qed.

Lemma str_app_nil_r (a : string) : a ++ "" = a.
Proof. induction a as [|x a IH]; simpl; [reflexivity | now rewrite IH]. Qed.

Lemma split_acc_nonempty (s cur : string) : split_slash_acc s cur <> [].
Proof.
  revert cur; induction s as [|c s IH]; intro cur; simpl; [discriminate|].
  destruct (Ascii.eqb c slash); [discriminate | apply IH].
Qed.

Lemma split_acc_slash_app (a b cur : string) :
  split_slash_acc (a ++ String slash b) cur = (split_slash_acc a cur ++ split_slash b)%list.
Proof.
  revert cur; induction a as [|c a IH]; intro cur; simpl.
  - reflexivity.
  - destruct (Ascii.eqb c slash); simpl; [now rewrite IH | apply IH].
Qed.

Lemma split_acc_noslash (s cur : string) :
  no_slash s = true -> split_slash_acc s cur = [cur ++ s].
Proof.
  revert cur; induction s as [|c s IH]; intros cur H; simpl in *.
  - now rewrite str_app_nil_r.
  - apply andb_prop in H as [Hc Hs]. apply negb_true_iff in Hc. rewrite Hc.
    rewrite IH by exact Hs. now rewrite str_app_assoc.
Qed.

Lemma split_acc_app_noslash (s t cur : string) :
  no_slash t = true ->
  split_slash_acc (s ++ t) cur =
  (removelast (split_slash_acc s cur) ++ [String.append (last (split_slash_acc s cur) "") t])%list.
Proof.
  intro Ht; revert cur; induction s as [|c s IH]; intro cur; simpl.
  - now apply split_acc_noslash.
  - destruct (Ascii.eqb c slash).
    + rewrite IH.
      pose proof (split_acc_nonempty s "") as Hne.
      destruct (split_slash_acc s "") as [|x l] eqn:E; [contradiction|].
      reflexivity.
    + apply IH.
Qed.

Lemma split_acc_no_slash_elems (s cur : string) :
  no_slash cur = true -> Forall (fun x => no_slash x = true) (split_slash_acc s cur).
Proof.
  revert cur; induction s as [|c s IH]; intros cur Hc; simpl.
  - now constructor.
  - destruct (Ascii.eqb c slash) eqn:E.
    + constructor; [exact Hc | now apply IH].
    + apply IH. clear IH. induction cur as [|x cur IHc]; simpl in *.
      * now rewrite E.
      * apply andb_prop in Hc as [H1 H2]. now rewrite H1, IHc.
Qed.

Lemma join_with_split (rs : list string) :
  rs <> [] -> Forall (fun x => no_slash x = true) rs ->
  split_slash (join_with "/" rs) = rs.
Proof.
  induction rs as [|x rs IH]; intros Hne Hf; [contradiction|].
  inversion Hf as [|? ? Hx Hrs]; subst.
  destruct rs as [|y rs].
  - unfold split_slash; simpl. now rewrite split_acc_noslash.
  - change (join_with "/" (x :: y :: rs)) with (x ++ String slash (join_with "/" (y :: rs))).
    unfold split_slash. rewrite split_acc_slash_app, split_acc_noslash by exact Hx.
    simpl. f_equal. apply IH; [discriminate | exact Hrs].
Qed.

Lemma prefix_app (a b : string) : String.prefix a (a ++ b) = true.
Proof.
  induction a as [|x a IH]; simpl; [now destruct b|].
  destruct (ascii_dec x x) as [_|n]; [exact IH | contradiction].
Qed.

Lemma includes_of_prefix (s sub : string) :
  String.prefix sub s = true -> includes s sub = true.
Proof. destruct s; simpl; intro H; now rewrite H. Qed.

Lemma includes_app (a sub b : string) : includes (a ++ sub ++ b) sub = true.
Proof.
  induction a as [|x a IH]; simpl.
  - apply includes_of_prefix, prefix_app.
  - rewrite IH. apply orb_true_r.
Qed.

Lemma split_acc_in_sub (s cur seg : string) :
  In seg (split_slash_acc s cur) -> exists a b, cur ++ s = a ++ seg ++ b.
Proof.
  revert cur; induction s as [|c s IH]; intros cur Hin; simpl in *.
  - destruct Hin as [<-|[]]. exists "", "". simpl. now rewrite !str_app_nil_r.
  - destruct (Ascii.eqb c slash).
    + destruct Hin as [<-|Hin].
      * now exists "", (String c s).
      * destruct (IH "" Hin) as (a & b & E). simpl in E. subst s.
        exists (cur ++ String c a), b. rewrite str_app_assoc. reflexivity.
    + destruct (IH _ Hin) as (a & b & E). exists a, b.
      rewrite <- E, str_app_assoc. reflexivity.
Qed.

Lemma split_no_dotdot (fp : string) :
  includes fp ".." = false -> Forall (fun x => x <> "..") (split_slash fp).
Proof.
  intro H. apply Forall_forall. intros seg Hin ->.
  destruct (split_acc_in_sub fp "" ".." Hin) as (a & b & E). simpl in E.
  subst fp. pose proof (includes_app a ".." b) as Hi. simpl in Hi.
  rewrite Hi in H. discriminate.
Qed.

Lemma fold_push (b : bool) (segs acc : list string) :
  Forall (fun x => x <> "..") segs ->
  fold_left (norm_step b) segs acc =
  (rev (filter (fun x => negb (String.eqb x "" || String.eqb x ".")) segs) ++ acc)%list.
Proof.
  revert acc; induction segs as [|x segs IH]; intros acc Hf; simpl; [reflexivity|].
  inversion Hf as [|? ? Hx Hs]; subst.
  rewrite IH by exact Hs. unfold norm_step.
  destruct (String.eqb x "" || String.eqb x ".") eqn:E; simpl; [reflexivity|].
  apply String.eqb_neq in Hx. rewrite Hx. now rewrite <- app_assoc.
Qed.

Lemma good_not_dotdot (rs : list string) :
  Forall (fun x => good_seg x = true) rs -> Forall (fun x => x <> "..") rs.
Proof.
  apply Forall_impl. intros x Hx ->. discriminate.
Qed.

Lemma filter_good (rs : list string) :
  Forall (fun x => good_seg x = true) rs ->
  filter (fun x => negb (String.eqb x "" || String.eqb x ".")) rs = rs.
Proof.
  induction rs as [|x rs IH]; intro Hf; simpl; [reflexivity|].
  inversion Hf as [|? ? Hx Hs]; subst. unfold good_seg in Hx.
  destruct (String.eqb x ""), (String.eqb x "."); simpl in *; try discriminate.
  now rewrite IH.
Qed.

Lemma join_with_app (sep : string) (rs l : list string) :
  rs <> [] ->
  join_with sep (rs ++ l) =
  join_with sep rs ++ match l with [] => "" | _ => sep ++ join_with sep l end.
Proof.
  induction rs as [|x rs IH]; intro Hne; [contradiction|].
  destruct rs as [|y rs].
  - destruct l as [|z l]; simpl; [now rewrite str_app_nil_r | reflexivity].
  - change ((x :: y :: rs) ++ l)%list with (x :: ((y :: rs) ++ l))%list.
    change (join_with sep (x :: ((y :: rs) ++ l))%list)
      with (x ++ sep ++ join_with sep ((y :: rs) ++ l)%list).
    change (join_with sep (x :: y :: rs)) with (x ++ sep ++ join_with sep (y :: rs)).
    rewrite IH by discriminate. now rewrite !str_app_assoc.
Qed.

Lemma join_with_head (sep : string) (x : string) (rs : list string) :
  exists w, join_with sep (x :: rs) = x ++ w.
Proof.
  destruct rs as [|y rs].
  - exists "". simpl. now rewrite str_app_nil_r.
  - now exists (sep ++ join_with sep (y :: rs)).
Qed.

Lemma within_app (root suffix : string) :
  (suffix = "" \/ exists w, suffix = "/" ++ w) ->
  within root (root ++ suffix) = true.
Proof.
  intros [->|[w ->]]; unfold within.
  - rewrite str_app_nil_r, String.eqb_refl. reflexivity.
  - rewrite <- str_app_assoc, prefix_app. apply orb_true_r.
Qed.

(** Joining a path without [..] onto a normalised absolute directory stays
    at or below that directory. *)
Lemma join_within (rs : list string) (fp : string) :
  rs <> [] -> Forall (fun x => good_seg x = true) rs ->
  fp <> "" -> includes fp ".." = false ->
  within ("/" ++ join_with "/" rs) (join ("/" ++ join_with "/" rs) fp) = true.
Proof.
  intros Hne Hgood Hfp Hdd.
  assert (Hns : Forall (fun x => no_slash x = true) rs).
  { eapply Forall_impl; [|exact Hgood]. intros x Hx.
    unfold good_seg in Hx. now apply andb_prop in Hx as [_ Hx]. }
  set (J := join_with "/" rs).
  assert (HJ : J <> "").
  { destruct rs as [|x rs']; [contradiction|].
    destruct (join_with_head "/" x rs') as [w Hw]. unfold J. rewrite Hw.
    inversion Hgood as [|? ? Hx _]; subst. unfold good_seg in Hx.
    destruct x; [discriminate | simpl; discriminate]. }
  unfold join, join_all. simpl filter.
  apply String.eqb_neq in Hfp. rewrite Hfp. simpl.
  unfold normalize. simpl.
  set (L := filter (fun x => negb (String.eqb x "" || String.eqb x "."))
              (split_slash fp)).
  assert (Hbody : normalize_string false (String slash (J ++ String slash fp))
                  = join_with "/" (rs ++ L)).
  { unfold normalize_string, split_slash. simpl.
    rewrite split_acc_slash_app.
    change (split_slash_acc J "") with (split_slash J).
    unfold J. rewrite join_with_split by assumption.
    change (norm_step false [] "") with (@nil string).
    rewrite fold_left_app.
    rewrite (fold_push false rs []) by (apply good_not_dotdot; exact Hgood).
    rewrite filter_good, app_nil_r by exact Hgood.
    rewrite fold_push by (apply split_no_dotdot; exact Hdd).
    fold L. now rewrite rev_app_distr, !rev_involutive. }
  unfold slash in Hbody. rewrite Hbody.
  rewrite join_with_app by exact Hne. fold J.
  set (M := match L with [] => "" | _ => "/" ++ join_with "/" L end).
  assert (HM : M = "" \/ exists w, M = "/" ++ w).
  { unfold M. destruct L; [now left | right; eexists; reflexivity]. }
  assert (Hb : String.eqb (J ++ M) "" = false).
  { apply String.eqb_neq. intro E. destruct J; [contradiction | discriminate]. }
  rewrite Hb.
  destruct (ends_with_slash _).
  - replace (String "/" ((J ++ M) ++ "/")) with (("/" ++ J) ++ (M ++ "/"))
      by (simpl; now rewrite str_app_assoc).
    apply within_app. destruct HM as [->|[w ->]].
    + right. now exists "".
    + right. exists (w ++ "/"). reflexivity.
  - replace (String "/" (J ++ M)) with (("/" ++ J) ++ M) by reflexivity.
    now apply within_app.
Qed.

Lemma no_slash_app (a b : string) :
  no_slash a = true -> no_slash b = true -> no_slash (a ++ b) = true.
Proof.
  induction a as [|c a IH]; simpl; [auto|].
  intros Ha Hb. apply andb_prop in Ha as [H1 H2]. now rewrite H1, IH.
Qed.

Lemma length_app_str (a b : string) : String.length (a ++ b) = String.length a + String.length b.
Proof. induction a as [|c a IH]; simpl; congruence. Qed.

Lemma good_docpack_seg (x : string) :
  no_slash x = true -> good_seg (x ++ ".docpack") = true.
Proof.
  intro Hx. unfold good_seg.
  assert (Hl : 8 <= String.length (x ++ ".docpack")) by (rewrite length_app_str; simpl; lia).
  assert (E : forall y, String.length y < 8 -> String.eqb (x ++ ".docpack") y = false).
  { intros y Hy. apply String.eqb_neq. intros Heq. rewrite Heq in Hl. lia. }
  rewrite (E ""), (E "."), (E "..") by (simpl; lia). simpl.
  apply no_slash_app; [exact Hx | reflexivity].
Qed.

Lemma norm_step_good (b : bool) (acc : list string) (x : string) :
  good_seg x = true -> norm_step b acc x = x :: acc.
Proof.
  unfold good_seg, norm_step. intro H.
  destruct (String.eqb x ""), (String.eqb x "."), (String.eqb x ".."); simpl in *;
    try discriminate; reflexivity.
Qed.

Lemma fold_good_stack (segs acc : list string) :
  Forall (fun x => no_slash x = true) segs ->
  Forall (fun x => good_seg x = true) acc ->
  Forall (fun x => good_seg x = true) (fold_left (norm_step false) segs acc).
Proof.
  revert acc; induction segs as [|x segs IH]; intros acc Hs Ha; simpl; [exact Ha|].
  inversion Hs as [|? ? Hx Hs']; subst. apply IH; [exact Hs'|].
  unfold norm_step.
  destruct (String.eqb x "") eqn:E1; simpl; [exact Ha|].
  destruct (String.eqb x ".") eqn:E2; simpl; [exact Ha|].
  destruct (String.eqb x "..") eqn:E3.
  - destruct acc as [|y acc]; [constructor|].
    destruct (String.eqb y ".."); [exact Ha|]. now inversion Ha.
  - constructor; [|exact Ha]. unfold good_seg. now rewrite E1, E2, E3, Hx.
Qed.

Lemma last_in {A : Type} (l : list A) (d : A) : l <> [] -> In (last l d) l.
Proof.
  induction l as [|x l IH]; intro H; [contradiction|].
  destruct l as [|y l]; [now left | right; apply IH; discriminate].
Qed.

Lemma last_char_app (s t : string) : t <> "" -> last_char (s ++ t) = last_char t.
Proof.
  intro Ht. induction s as [|c s IH]; simpl; [reflexivity|].
  destruct (s ++ t) eqn:E.
  - destruct s; simpl in E; [contradiction | discriminate].
  - exact IH.
Qed.

Lemma normalize_starts_with_slash (p : string) :
  starts_with_slash p = true -> starts_with_slash (normalize p) = true.
Proof.
  intro H. unfold normalize.
  destruct (String.eqb p "") eqn:E; [apply String.eqb_eq in E; now subst|].
  rewrite H. destruct (String.eqb (normalize_string _ p) ""); reflexivity.
Qed.

Lemma starts_with_slash_app (a b : string) :
  a <> "" -> starts_with_slash (a ++ b) = starts_with_slash a.
Proof. destruct a; [contradiction | reflexivity]. Qed.

Lemma output_dir_abs (home : string) :
  is_absolute home = true -> starts_with_slash (FileEndpoint.OUTPUT_DIR home) = true.
Proof.
  intro H. unfold FileEndpoint.OUTPUT_DIR, join_all.
  destruct home as [|c home]; [discriminate|]. simpl.
  apply normalize_starts_with_slash. exact H.
Qed.

(** The directory the file endpoint reads from is a normalised absolute
    path. *)
Lemma docpack_path_form (home id : string) :
  is_absolute home = true ->
  exists rs, rs <> [] /\ Forall (fun x => good_seg x = true) rs /\
             FileEndpoint.docpack_path home id = "/" ++ join_with "/" rs.
Proof.
  intro Hh.
  pose proof (output_dir_abs home Hh) as HO.
  set (O := FileEndpoint.OUTPUT_DIR home) in *.
  assert (HOne : O <> "") by (intro E; rewrite E in HO; discriminate).
  set (q := O ++ String slash (id ++ ".docpack")).
  assert (Hq : FileEndpoint.docpack_path home id = normalize q).
  { unfold FileEndpoint.docpack_path, join, join_all. fold O. simpl filter.
    apply String.eqb_neq in HOne. rewrite HOne.
    assert (E : String.eqb (id ++ ".docpack") "" = false).
    { apply String.eqb_neq. intro E. apply (f_equal String.length) in E.
      rewrite length_app_str in E. simpl in E. lia. }
    rewrite E. simpl.
    assert (E2 : String.eqb (O ++ String "/" (id ++ ".docpack")) "" = false).
    { apply String.eqb_neq. destruct O; [simpl in HO; discriminate HO | discriminate]. }
    rewrite E2. reflexivity. }
  set (x := String.append (last (split_slash id) "") ".docpack").
  assert (Hx : good_seg x = true).
  { apply good_docpack_seg.
    pose proof (split_acc_no_slash_elems id "" eq_refl) as Hf.
    pose proof (split_acc_nonempty id "") as Hne.
    fold (split_slash id) in Hf, Hne.
    destruct (split_slash id) as [|y l] eqn:E; [contradiction|].
    rewrite Forall_forall in Hf. apply Hf. apply last_in. discriminate. }
  assert (Hsplit : split_slash q =
                   ((split_slash O ++ removelast (split_slash id)) ++ [x])%list).
  { unfold q. unfold split_slash at 1. rewrite split_acc_slash_app.
    unfold split_slash. rewrite split_acc_app_noslash by reflexivity.
    now rewrite app_assoc. }
  set (stack := fold_left (norm_step false) (split_slash q) []).
  assert (Hstack : stack = x :: fold_left (norm_step false)
                                 (split_slash O ++ removelast (split_slash id)) []).
  { unfold stack. rewrite Hsplit, fold_left_app. simpl. now apply norm_step_good. }
  assert (Hgood : Forall (fun y => good_seg y = true) stack).
  { apply fold_good_stack; [|constructor].
    apply split_acc_no_slash_elems. reflexivity. }
  exists (rev stack). split; [|split].
  - rewrite Hstack. simpl. intro E. now apply app_eq_nil in E as [_ E].
  - now apply Forall_rev.
  - rewrite Hq. unfold normalize.
    assert (E : String.eqb q "" = false) by (apply String.eqb_neq; unfold q; destruct O; [contradiction|discriminate]).
    rewrite E.
    assert (Habs : starts_with_slash q = true) by (unfold q; rewrite starts_with_slash_app by exact HOne; exact HO).
    assert (Htr : ends_with_slash q = false).
    { unfold ends_with_slash, q.
      replace (O ++ String slash (id ++ ".docpack")) with ((O ++ String slash id) ++ ".docpack")
        by (now rewrite str_app_assoc).
      rewrite last_char_app by discriminate. reflexivity. }
    rewrite Habs, Htr. simpl negb.
    unfold normalize_string. fold stack.
    rewrite Hstack. simpl rev.
    assert (Hne : String.eqb (join_with "/" (rev (fold_left (norm_step false)
                    (split_slash O ++ removelast (split_slash id)) []) ++ [x])) "" = false).
    { apply String.eqb_neq.
      destruct (rev (fold_left (norm_step false)
                    (split_slash O ++ removelast (split_slash id)) [])) as [|y l] eqn:E3.
      - simpl. unfold good_seg in Hx. destruct x; [discriminate | discriminate].
      - simpl ((y :: l) ++ [x])%list.
        destruct (join_with_head "/" y (l ++ [x])) as [w Hw]. rewrite Hw.
        assert (Hy : good_seg y = true).
        { rewrite Hstack in Hgood. inversion Hgood as [|? ? _ Hg]; subst.
          apply Forall_rev in Hg. rewrite E3 in Hg. now inversion Hg. }
        unfold good_seg in Hy. destruct y; [discriminate | discriminate]. }
    rewrite Hne. reflexivity.
Qed.

End PathFacts.

(* ------------------------------------------------------------------ *)
(** ** The file endpoint *)

Module FileEndpointProps.
Import Json Http FileEndpoint.

Lemma GET_dotdot (home id fp : string) (t : FS.fs) :
  Path.includes fp ".." = true ->
  run t (GET home id (Some fp)) = (json_status (error_body "Invalid file path") 400, []).
Proof.
  intro H. unfold GET.
  destruct (String.eqb fp "") eqn:E.
  - apply String.eqb_eq in E. subst fp. discriminate H.
  - now rewrite H.
Qed.

Lemma GET_plain (home id fp : string) (t : FS.fs) :
  fp <> "" -> Path.includes fp ".." = false ->
  run t (GET home id (Some fp)) =
  (read_response (FS.read_file t (Path.join (docpack_path home id) fp)),
   [Path.join (docpack_path home id) fp]).
Proof.
  intros Hne H. unfold GET.
  apply String.eqb_neq in Hne. rewrite Hne, H. reflexivity.
Qed.

(** C1, counterexample.  A path with no [..] whose file is a symbolic link
    out of the docpack is not rejected: the endpoint reads through the link
    and answers 200 with the outside file's content; an absolute path is not
    rejected either, it is read beneath the docpack directory. *)
Lemma file_get_symlink_escape_served :
  run Fixtures.escape_fs (GET "/home/u" "x" (Some "files/notes.md")) =
    (json (JObj [("content", JStr "root:x:0:0:root:/root:/bin/bash")]),
     ["/home/u/.localdoc/outputs/x.docpack/files/notes.md"])
  /\ Path.within (docpack_path "/home/u" "x")
       (FS.real_path Fixtures.escape_fs "/home/u/.localdoc/outputs/x.docpack/files/notes.md")
     = false
  /\ run [] (GET "/home/u" "x" (Some "/etc/passwd")) =
     (json_status (error_body "ENOENT: no such file or directory, open '/home/u/.localdoc/outputs/x.docpack/etc/passwd'") 500,
      ["/home/u/.localdoc/outputs/x.docpack/etc/passwd"]).
Proof. split; [|split]; vm_compute; reflexivity. Qed.

(** C1 (amended).  A requested path containing [..] is answered with status
    400 and no filesystem access.  Any other non-empty path, absolute ones
    included, is read at [join(docpackPath, path)], which lies at or below
    the docpack directory; the read follows symbolic links with no
    canonicalisation or re-check. *)
Theorem file_get_dotdot_rejected_absolute_confined (home id fp : string)
  (Hh : Path.is_absolute home = true) :
  (Path.includes fp ".." = true ->
   forall t, run t (GET home id (Some fp)) =
             (json_status (error_body "Invalid file path") 400, []))
  /\ (fp <> "" -> Path.includes fp ".." = false ->
      Path.within (docpack_path home id) (Path.join (docpack_path home id) fp) = true
      /\ forall t, run t (GET home id (Some fp)) =
                   (read_response (FS.read_file t (Path.join (docpack_path home id) fp)),
                    [Path.join (docpack_path home id) fp])).
Proof.
  split.
  - intros H t. now apply GET_dotdot.
  - intros Hne H. split.
    + destruct (PathFacts.docpack_path_form home id Hh) as (rs & Hrs & Hg & E).
      rewrite E. now apply PathFacts.join_within.
    + intro t. now apply GET_plain.
Qed.

Lemma file_get_dotdot_rejected_absolute_confined_witness :
  Path.is_absolute "/home/u" = true
  /\ ((Path.includes "/etc/passwd" ".." = true ->
       forall t, run t (GET "/home/u" "x" (Some "/etc/passwd")) =
                 (json_status (error_body "Invalid file path") 400, []))
      /\ ("/etc/passwd" <> "" -> Path.includes "/etc/passwd" ".." = false ->
          Path.within (docpack_path "/home/u" "x")
            (Path.join (docpack_path "/home/u" "x") "/etc/passwd") = true
          /\ forall t, run t (GET "/home/u" "x" (Some "/etc/passwd")) =
                       (read_response (FS.read_file t
                          (Path.join (docpack_path "/home/u" "x") "/etc/passwd")),
                        [Path.join (docpack_path "/home/u" "x") "/etc/passwd"]))).
Proof.
  split; [reflexivity|].
  apply (file_get_dotdot_rejected_absolute_confined "/home/u" "x" "/etc/passwd").
  reflexivity.
Defined.

(** C2, counterexample.  The empty [path] parameter ([?path=]) has no [..]
    but is not read: it is answered 400 ["No file path provided"] without
    touching the disk. *)
Lemma file_get_empty_path_not_read :
  Path.includes "" ".." = false
  /\ run [] (GET "/home/u" "x" (Some "")) =
     (json_status (error_body "No file path provided") 400, []).
Proof. split; reflexivity. Qed.

(** C2 (amended).  A [path] containing the substring [..] anywhere — also
    inside a file name such as [files/a..b.md] — is answered 400 with no
    read; any other non-empty [path] is read at [join(docpackPath, path)]
    directly, through whatever links the filesystem holds there; an empty
    [path], like an absent one, is answered 400 ["No file path provided"]
    with no read. *)
Theorem file_get_substring_check_then_raw_read (home id fp : string) (t : FS.fs) :
  (Path.includes fp ".." = true ->
   run t (GET home id (Some fp)) = (json_status (error_body "Invalid file path") 400, []))
  /\ (fp <> "" -> Path.includes fp ".." = false ->
      run t (GET home id (Some fp)) =
      (read_response (FS.read_file t (Path.join (docpack_path home id) fp)),
       [Path.join (docpack_path home id) fp]))
  /\ run t (GET home id (Some "files/a..b.md")) =
     (json_status (error_body "Invalid file path") 400, [])
  /\ run t (GET home id (Some "")) =
     (json_status (error_body "No file path provided") 400, [])
  /\ run t (GET home id None) =
     (json_status (error_body "No file path provided") 400, []).
Proof.
  split; [|split; [|split; [|split]]].
  - apply GET_dotdot.
  - apply GET_plain.
  - apply GET_dotdot. reflexivity.
  - reflexivity.
  - reflexivity.
Qed.

End FileEndpointProps.

(* ------------------------------------------------------------------ *)
(** ** The query agent's program *)

Module QueryScriptFacts.
Import QueryScript.

(** Line 46 of the program (line 82 of part_009) opens a string literal,
    at the double quote after [model=5-nano], that the line never closes. *)
Lemma query_script_unterminated : syntax_error_line query_script = Some 46.
Proof. vm_compute. reflexivity. Qed.

End QueryScriptFacts.

(* ------------------------------------------------------------------ *)
(** ** The query endpoint's failure paths *)

Module QueryEndpointProps.
Import Json Http QueryEndpoint.

Lemma has_char_app_r (c : ascii) (s t : string) :
  has_char c t = true -> has_char c (s ++ t) = true.
Proof.
  induction s as [|c' s IH]; simpl; [auto|].
  intro H. rewrite (IH H). apply orb_true_r.
Qed.

Lemma docker_args_reject (home cwd id query : string) :
  has_char nul query = true -> spawn_rejects (docker_args home cwd id query) = true.
Proof.
  intro H. unfold spawn_rejects. apply existsb_exists.
  exists ("QUERY=" ++ query). split.
  - unfold docker_args. do 7 right. left. reflexivity.
  - now apply has_char_app_r.
Qed.

(** C7.  Not every failure is returned as a structured payload.  A query
    holding a null byte makes [spawn] throw synchronously inside the
    [Promise] executor; the promise is returned from the [try] block
    without [await], so the handler's [catch] never runs and the request
    ends in an uncaught rejection rather than the handler's [{error}] JSON.
    Inside the container the process aborts as well, with exit status 1:
    CPython rejects the query script when compiling it, so it aborts
    whatever the model answers, tool-argument strings that the unguarded
    [json.loads] could not parse included. *)
Theorem query_post_nul_uncaught (json_parse : string -> option jvalue)
  (home cwd id : string) (proc : list string -> proc_event) :
  (exists m, POST json_parse home cwd id
               (inr (JObj [("query", JStr ("a" ++ String nul "b"))])) proc = HUncaught m)
  /\ (forall (Args Res TS : Type) (parse_args : string -> option Args)
        (execute : TS -> string -> Args -> TS * Res) (dumps : Res -> string)
        (agent : list QueryLoop.msg -> QueryLoop.reply) (ts : TS) (prompt : string)
        (tc : QueryLoop.tool_call) (rest : list QueryLoop.tool_call),
        QueryLoop.r_tool_calls (agent [QueryLoop.MUser prompt]) = tc :: rest ->
        parse_args (QueryLoop.tc_arguments tc) = None ->
        fst (QueryLoop.run_query parse_args execute dumps agent ts prompt) = QueryLoop.OAbort).
Proof.
  split.
  - unfold POST. simpl get. cbv [assoc String.eqb].
    change (String.eqb ("a" ++ String nul "b") "") with false. cbv iota beta.
    rewrite docker_args_reject by reflexivity. eauto.
  - intros Args Res TS parse_args execute dumps agent ts prompt tc rest Hc Hp.
    unfold QueryLoop.run_query. rewrite QueryScriptFacts.query_script_unterminated.
    reflexivity.
Qed.

End QueryEndpointProps.

(* ------------------------------------------------------------------ *)
(** ** The docpack listing *)

Module ListEndpointProps.
Import Json Http ListEndpoint.

Lemma in_valid (l : list (option jvalue)) (v : jvalue) :
  In v (rev (flat_map (fun d => match d with Some v => [v] | None => [] end) l))
  <-> In (Some v) l.
Proof.
  rewrite <- in_rev, in_flat_map. split.
  - intros [[x|] [Hx Hv]]; [|contradiction]. destruct Hv as [<-|[]]. exact Hx.
  - intro H. exists (Some v). split; [exact H | left; reflexivity].
Qed.

(** C9.  The listing never fails wholesale because of one docpack: with
    no outputs directory it answers 200 with an empty list; otherwise it
    answers 200 with exactly the [.docpack] entries whose callback did not
    return [null].  An entry whose manifest cannot be read, or does not
    parse, is [null]; an entry whose manifest is a JSON object and whose
    directory can be stat'ed is listed. *)
Theorem list_docpacks_tolerant (json_parse : string -> option jvalue)
  (locale_date : jvalue + string -> string) :
  (forall o, readdir_outputs o = None ->
     GET json_parse locale_date o = HResp (json (JObj [("docpacks", JArr [])])))
  /\ (forall o files, readdir_outputs o = Some files ->
        exists l, GET json_parse locale_date o = HResp (json (JObj [("docpacks", JArr l)]))
          /\ forall v, In v l <-> exists d, In d files /\ ends_with ".docpack" d = true
                                  /\ docpack_entry json_parse locale_date o d = Some v)
  /\ (forall o d e, read_manifest o d = FS.RErr e ->
        docpack_entry json_parse locale_date o d = None)
  /\ (forall o d txt, read_manifest o d = FS.ROk txt -> json_parse txt = None ->
        docpack_entry json_parse locale_date o d = None)
  /\ (forall o d txt fs mtime, read_manifest o d = FS.ROk txt ->
        json_parse txt = Some (JObj fs) -> stat_mtime o d = Some mtime ->
        exists v, docpack_entry json_parse locale_date o d = Some v).
Proof.
  split; [|split; [|split; [|split]]].
  - intros o H. unfold GET. now rewrite H.
  - intros o files H. unfold GET. rewrite H. eexists. split; [reflexivity|].
    intro v. rewrite in_valid, in_map_iff. split.
    + intros [d [Hd Hin]]. apply filter_In in Hin as [Hin He]. eauto.
    + intros [d [Hin [He Hd]]]. exists d. split; [exact Hd|]. now apply filter_In.
  - intros o d e H. unfold docpack_entry. now rewrite H.
  - intros o d txt H Hp. unfold docpack_entry. now rewrite H, Hp.
  - intros o d txt fs mtime H Hp Hs. unfold docpack_entry. rewrite H, Hp, Hs.
    simpl get. destruct (assoc "metadata" fs) as [[]|]; eauto.
Qed.

End ListEndpointProps.

(* ------------------------------------------------------------------ *)
(** ** The docpack viewer's file tree *)

Module FileTreeProps.
Import FileTree.

Section Sorting.

Variable localeCompare : string -> string -> comparison.
Hypothesis lc_antisym : forall a b, localeCompare b a = CompOpp (localeCompare a b).

Local Abbreviation cmp := (compare_nodes localeCompare).
Local Abbreviation R := (fun a b => compare_nodes localeCompare a b <> Gt).

Lemma cmp_antisym (a b : file_node) : cmp b a = CompOpp (cmp a b).
Proof.
  unfold compare_nodes. destruct (ntype a), (ntype b); simpl; auto.
Qed.

Lemma R_flip (x y : file_node) : cmp x y <> Lt -> R y x.
Proof.
  cbv beta. rewrite (cmp_antisym x y). destruct (cmp x y); simpl; intros; congruence.
Qed.

Lemma insert_hd (x y : file_node) (l : list file_node) :
  HdRel R y l -> R y x -> HdRel R y (insert localeCompare x l).
Proof.
  intros Hhd Hyx. destruct l as [|z l]; simpl; [now constructor|].
  inversion Hhd; subst. destruct (cmp x z); now constructor.
Qed.

Lemma insert_sorted (x : file_node) (l : list file_node) :
  Sorted R l -> Sorted R (insert localeCompare x l).
Proof.
  induction 1 as [|y l Hs IH Hhd]; simpl; [now repeat constructor|].
  destruct (cmp x y) eqn:E.
  - constructor; [exact IH|]. apply insert_hd; [exact Hhd|]. apply R_flip. congruence.
  - constructor; [constructor; assumption|]. constructor. congruence.
  - constructor; [exact IH|]. apply insert_hd; [exact Hhd|]. apply R_flip. congruence.
Qed.

Lemma sort_sorted (l : list file_node) : Sorted R (sort localeCompare l).
Proof.
  unfold sort. assert (H : Sorted R []) by constructor. revert H.
  generalize (@nil file_node). induction l as [|x l IH]; intros acc H; simpl; [exact H|].
  apply IH. now apply insert_sorted.
Qed.

Lemma insert_perm (x : file_node) (l : list file_node) :
  Permutation (insert localeCompare x l) (x :: l).
Proof.
  induction l as [|y l IH]; simpl; [reflexivity|].
  destruct (cmp x y); try reflexivity;
    (etransitivity; [apply perm_skip, IH | apply perm_swap]).
Qed.

Lemma sort_perm (l : list file_node) : Permutation (sort localeCompare l) l.
Proof.
  unfold sort. cut (forall acc, Permutation (fold_left (fun acc x => insert localeCompare x acc) l acc)
                                            (l ++ acc)%list).
  { intro H. rewrite (H []), app_nil_r. reflexivity. }
  induction l as [|x l IH]; intro acc; simpl; [reflexivity|].
  rewrite IH, insert_perm. symmetry. apply Permutation_middle.
Qed.

Lemma level_of_sorted (l : list file_node) : Sorted R l -> level_ok localeCompare l.
Proof.
  induction 1 as [|x t Hs IH Hhd].
  - exists [], []. repeat split; constructor.
  - destruct IH as (ds & fs & -> & Hd & Hf & Sd & Sf).
    destruct (ntype x) eqn:Ex.
    + destruct ds as [|d ds].
      * exists [], (x :: fs). repeat split; auto.
        constructor; [exact Sf|]. destruct fs as [|f fs]; constructor.
        inversion Hhd; subst. inversion Hf; subst. unfold name_le.
        unfold compare_nodes in *. rewrite Ex, H2 in H0. exact H0.
      * exfalso. inversion Hhd; subst. inversion Hd; subst. apply H0.
        unfold compare_nodes. rewrite Ex, H2. reflexivity.
    + exists (x :: ds), fs. repeat split; auto.
      constructor; [exact Sd|]. destruct ds as [|d ds]; constructor.
      inversion Hhd; subst. inversion Hd; subst. unfold name_le.
      unfold compare_nodes in *. rewrite Ex, H2 in H0. exact H0.
Qed.

Lemma collect_children (b : string -> string -> option (list file_node))
  (dir bp : string) (items : list dirent) (l : list file_node) (n : file_node)
  (ch : list file_node) :
  collect b dir bp items = Some l -> In n l -> children n = Some ch ->
  exists d' p', b d' p' = Some ch.
Proof.
  revert l; induction items as [|it rest IH]; intros l H Hin Hch; simpl in H.
  - injection H as <-. destruct Hin.
  - destruct (item_node b dir bp it) as [m|] eqn:Ei; [|discriminate].
    destruct (collect b dir bp rest) as [l'|] eqn:Er; [|discriminate].
    injection H as <-. destruct Hin as [<-|Hin]; [|eauto].
    unfold item_node in Ei. destruct (d_is_directory it).
    + destruct (b _ _) eqn:Eb; [|discriminate]. injection Ei as <-.
      simpl in Hch. injection Hch as ->. eauto.
    + injection Ei as <-. discriminate Hch.
Qed.

Lemma build_sorted (readdir : string -> option (list dirent)) (fuel : nat) :
  forall dir bp l, buildFileTree localeCompare readdir fuel dir bp = Some l ->
  sorted_levels localeCompare fuel l.
Proof.
  induction fuel as [|f IH]; intros dir bp l H; simpl in H; [discriminate|].
  destruct (readdir dir) as [items|]; [|discriminate].
  destruct (collect _ dir bp items) as [l0|] eqn:Ec; [|discriminate].
  injection H as <-. split; [apply level_of_sorted, sort_sorted|].
  intros n ch Hin Hch. apply (Permutation_in _ (sort_perm l0)) in Hin.
  destruct (collect_children _ _ _ _ _ _ _ Ec Hin Hch) as (d' & p' & Hb).
  eapply IH. exact Hb.
Qed.

(** Determinism needs [localeCompare] to be a total order on names. *)
Hypothesis lc_trans : forall a b c,
  localeCompare a b <> Gt -> localeCompare b c <> Gt -> localeCompare a c <> Gt.
Hypothesis lc_eq : forall a b, localeCompare a b = Eq -> a = b.

Lemma R_trans (a b c : file_node) : R a b -> R b c -> R a c.
Proof.
  unfold compare_nodes. destruct (ntype a), (ntype b), (ntype c); simpl; try congruence.
  - apply lc_trans.
  - apply lc_trans.
Qed.

Lemma nodup_name (l : list file_node) (a b : file_node) :
  NoDup (map name l) -> In a l -> In b l -> name a = name b -> a = b.
Proof.
  induction l as [|x l IH]; intros Hn Ha Hb E; [destruct Ha|].
  inversion Hn as [|y l' Hx Hn']; subst.
  destruct Ha as [<-|Ha], Hb as [<-|Hb]; auto.
  - exfalso. apply Hx. rewrite E. now apply in_map.
  - exfalso. apply Hx. rewrite <- E. now apply in_map.
Qed.

Lemma sorted_unique (l1 l2 : list file_node) :
  StronglySorted R l1 -> StronglySorted R l2 -> Permutation l1 l2 ->
  NoDup (map name l1) -> l1 = l2.
Proof.
  revert l2; induction l1 as [|a t1 IH]; intros l2 S1 S2 P N.
  - symmetry. now apply Permutation_nil.
  - destruct l2 as [|b t2]; [now apply Permutation_sym, Permutation_nil_cons in P|].
    apply StronglySorted_inv in S1 as [S1 F1]. apply StronglySorted_inv in S2 as [S2 F2].
    assert (Eab : a = b).
    { assert (Ha : In a (b :: t2)) by (apply (Permutation_in _ P); left; reflexivity).
      assert (Hb : In b (a :: t1)) by (apply (Permutation_in _ (Permutation_sym P)); left; reflexivity).
      destruct Ha as [Ha|Ha]; [now symmetry|]. destruct Hb as [Hb|Hb]; [exact Hb|].
      assert (Rba : R b a) by (rewrite Forall_forall in F2; exact (F2 a Ha)).
      assert (Rab : R a b) by (rewrite Forall_forall in F1; exact (F1 b Hb)).
      assert (Ec : cmp a b = Eq).
      { cbv beta in Rab, Rba. rewrite (cmp_antisym a b) in Rba.
        destruct (cmp a b); simpl in *; congruence. }
      apply (nodup_name (a :: t1)); [exact N | left; reflexivity | right; exact Hb |].
      unfold compare_nodes in Ec. destruct (ntype a), (ntype b); simpl in Ec;
        try discriminate; now apply lc_eq. }
    subst b. f_equal. apply IH; auto.
    + eapply Permutation_cons_inv. exact P.
    + now inversion N.
Qed.

End Sorting.

Lemma collect_ext (b1 b2 : string -> string -> option (list file_node))
  (dir bp : string) (items : list dirent) :
  (forall x y, b1 x y = b2 x y) -> collect b1 dir bp items = collect b2 dir bp items.
Proof.
  intro H. induction items as [|it rest IH]; simpl; [reflexivity|].
  unfold item_node. rewrite H, IH. reflexivity.
Qed.

Lemma collect_names (b : string -> string -> option (list file_node))
  (dir bp : string) (items : list dirent) (l : list file_node) :
  collect b dir bp items = Some l -> map name l = map d_name items.
Proof.
  revert l; induction items as [|it rest IH]; intros l H; simpl in H.
  - now injection H as <-.
  - destruct (item_node b dir bp it) as [m|] eqn:Ei; [|discriminate].
    destruct (collect b dir bp rest) as [l'|] eqn:Er; [|discriminate].
    injection H as <-. simpl. rewrite (IH l' eq_refl). f_equal.
    unfold item_node in Ei. destruct (d_is_directory it).
    + destruct (b _ _); [|discriminate]. now injection Ei as <-.
    + now injection Ei as <-.
Qed.

Lemma collect_perm (b : string -> string -> option (list file_node))
  (dir bp : string) (items1 items2 : list dirent) :
  Permutation items1 items2 ->
  (collect b dir bp items1 = None <-> collect b dir bp items2 = None)
  /\ forall l1 l2, collect b dir bp items1 = Some l1 -> collect b dir bp items2 = Some l2 ->
                   Permutation l1 l2.
Proof.
  induction 1 as [|x i1 i2 P [IHn IHp]|x y i|i1 i2 i3 P12 [IHn12 IHp12] P23 [IHn23 IHp23]].
  - split; [tauto|]. intros l1 l2 H1 H2. simpl in *.
    injection H1 as <-. injection H2 as <-. constructor.
  - simpl. destruct (item_node b dir bp x) as [m|]; [|split; [tauto | intros; congruence]].
    destruct (collect b dir bp i1) as [a1|], (collect b dir bp i2) as [a2|]; simpl.
    + split; [split; discriminate|]. intros l1 l2 H1 H2.
      injection H1 as <-. injection H2 as <-. apply perm_skip, IHp; reflexivity.
    + exfalso. pose proof (proj2 IHn eq_refl). discriminate.
    + exfalso. pose proof (proj1 IHn eq_refl). discriminate.
    + split; [tauto | intros; congruence].
  - simpl. destruct (item_node b dir bp x) as [m|], (item_node b dir bp y) as [k|];
      try (split; [tauto | intros; congruence]).
    destruct (collect b dir bp i) as [a|]; simpl; [|split; [tauto | intros; congruence]].
    split; [split; discriminate|]. intros l1 l2 H1 H2.
    injection H1 as <-. injection H2 as <-. apply perm_swap.
  - split; [tauto|]. intros l1 l3 H1 H3.
    destruct (collect b dir bp i2) as [l2|] eqn:E2.
    + eapply perm_trans; [apply IHp12 | apply IHp23]; auto.
    + pose proof (proj2 IHn12 eq_refl). congruence.
Qed.

(** C10, counterexample.  [localeCompare] returns 0 for the two spellings
    of é, and the stable sort keeps such names in [readdir]'s order: the
    same directory contents listed in two orders give two different trees. *)
Lemma file_tree_listing_order_shows :
  Fixtures.locale_nfc Fixtures.e_acute_nfc Fixtures.e_acute_nfd = Eq
  /\ Fixtures.locale_nfc Fixtures.e_acute_nfd Fixtures.e_acute_nfc = Eq
  /\ buildFileTree Fixtures.locale_nfc
       (Fixtures.listing Fixtures.e_acute_nfc Fixtures.e_acute_nfd) 1 "/d" ""
     = Some [FileNode Fixtures.e_acute_nfc Fixtures.e_acute_nfc TFile None;
             FileNode Fixtures.e_acute_nfd Fixtures.e_acute_nfd TFile None]
  /\ buildFileTree Fixtures.locale_nfc
       (Fixtures.listing Fixtures.e_acute_nfd Fixtures.e_acute_nfc) 1 "/d" ""
     = Some [FileNode Fixtures.e_acute_nfd Fixtures.e_acute_nfd TFile None;
             FileNode Fixtures.e_acute_nfc Fixtures.e_acute_nfc TFile None].
Proof. vm_compute. repeat split. Qed.

(** C10 (amended).  Given that [localeCompare] is antisymmetric, every list the file
    tree builder returns is ordered at every level down to the recursion
    depth: directories first, then files, each group ascending by
    [localeCompare] on names.  If moreover [localeCompare] is transitive
    and tells distinct names apart, the tree depends only on the contents
    of each directory (with unique names), not on the order in which
    [readdir] lists them. *)
Theorem file_tree_ordered (localeCompare : string -> string -> comparison) :
  ((forall a b, localeCompare b a = CompOpp (localeCompare a b)) ->
   forall readdir fuel dir basePath l,
     buildFileTree localeCompare readdir fuel dir basePath = Some l ->
     sorted_levels localeCompare fuel l)
  /\ ((forall a b, localeCompare b a = CompOpp (localeCompare a b)) ->
      (forall a b c, localeCompare a b <> Gt -> localeCompare b c <> Gt ->
                     localeCompare a c <> Gt) ->
      (forall a b, localeCompare a b = Eq -> a = b) ->
      forall readdir1 readdir2,
        (forall d, (readdir1 d = None /\ readdir2 d = None)
                   \/ exists a b, readdir1 d = Some a /\ readdir2 d = Some b
                                  /\ Permutation a b /\ NoDup (map d_name a)) ->
      forall fuel dir basePath,
        buildFileTree localeCompare readdir1 fuel dir basePath
        = buildFileTree localeCompare readdir2 fuel dir basePath).
Proof.
  split.
  - intros Ha readdir fuel. apply build_sorted. exact Ha.
  - intros Ha Ht Heq r1 r2 Hr fuel. induction fuel as [|f IH]; intros dir bp; [reflexivity|].
    simpl. destruct (Hr dir) as [[E1 E2] | (a & b & E1 & E2 & P & N)];
      rewrite E1, E2; [reflexivity|].
    rewrite (collect_ext _ _ dir bp a IH).
    destruct (collect_perm (buildFileTree localeCompare r2 f) dir bp a b P) as [Hn Hp].
    destruct (collect _ dir bp a) as [l1|] eqn:C1,
             (collect _ dir bp b) as [l2|] eqn:C2; simpl.
    + f_equal. apply (sorted_unique localeCompare Ha Heq).
      * apply Sorted_StronglySorted; [intros x y z; apply (R_trans localeCompare Ht)|].
        apply sort_sorted. exact Ha.
      * apply Sorted_StronglySorted; [intros x y z; apply (R_trans localeCompare Ht)|].
        apply sort_sorted. exact Ha.
      * rewrite !sort_perm. auto.
      * apply (Permutation_NoDup (Permutation_map name (Permutation_sym (sort_perm localeCompare l1)))).
        rewrite (collect_names _ _ _ _ _ C1). exact N.
    + pose proof (proj2 Hn eq_refl). discriminate.
    + pose proof (proj1 Hn eq_refl). discriminate.
    + reflexivity.
Qed.

End FileTreeProps.

(* ------------------------------------------------------------------ *)
(** ** Sandbox read quota (modelled from the spec) *)

Module CoreProps.
Import Core.

Section Run.

Variable m : manifest.
Variable root out_root : string.
Variable max_bytes : nat.
Variable last_write_wins : bool.
Variable clock : nat -> nat.
Variable run_deadline : nat.

Local Abbreviation dispatch := (dispatch m root out_root max_bytes last_write_wins clock).
Local Abbreviation run_calls :=
  (run_calls m root out_root max_bytes last_write_wins clock run_deadline).
Local Abbreviation task_loop :=
  (task_loop m root out_root max_bytes last_write_wins clock run_deadline).
Local Abbreviation rdc := (run_deadline_check clock run_deadline).

Definition is_agent (e : entry) : bool := match e with EAgent _ => true | _ => false end.

Lemma rdc_eq (r : run_state) :
  rdc r = (Nat.leb run_deadline (clock (ticks r)),
           mk_run_state (sandbox r) (files r) (S (ticks r))).
Proof. reflexivity. Qed.

Lemma checkDeadline_eq (r : run_state) :
  checkDeadline m clock r =
  (if Nat.ltb (max_seconds m) (clock (ticks r)) then Fail TimeExceeded else Ok tt,
   mk_run_state (sandbox r) (files r) (S (ticks r))).
Proof. reflexivity. Qed.

Lemma run_calls_cons (k : nat) (r : run_state) (conv : list entry) (c : tool_call)
  (rest : list tool_call) :
  run_calls k r conv (c :: rest) =
  let (reached, r0) := rdc r in
  if reached then (CallsDeadline, k, r0, conv)
  else
    let (tr, r') := dispatch r0 c in
    let conv' := (conv ++ [EResult (tool_name c) tr])%list in
    if is_resource_failure tr then
      if Nat.leb 1 k then (CallsExhausted, S k, r', conv')
      else run_calls 1 r' conv' rest
    else run_calls 0 r' conv' rest.
Proof. reflexivity. Qed.

Lemma task_loop_S (fuel k : nat) (agent : list entry -> agent_turn) (r : run_state)
  (conv : list entry) :
  task_loop (S fuel) k agent r conv =
  let (reached, r0) := rdc r in
  if reached then (SkippedDueToDeadline, r0, conv)
  else
    match agent conv with
    | AFinal c => (Completed, r0, (conv ++ [EAgent (AFinal c)])%list)
    | ACalls cs =>
        match run_calls k r0 (conv ++ [EAgent (ACalls cs)])%list cs with
        | (CallsExhausted, _, r', conv') => (ResourceExhausted, r', conv')
        | (CallsDeadline, _, r', conv') => (SkippedDueToDeadline, r', conv')
        | (CallsDone, k', r', conv') => task_loop fuel k' agent r' conv'
        end
    end.
Proof.
  simpl. destruct (Nat.leb run_deadline (clock (ticks r))); [reflexivity|].
  destruct (agent conv); reflexivity.
Qed.

(** ** The read quota *)

Lemma write_output_reads (t t' : FS.fs) (s s' : sandbox_state) (p content : string) :
  write_output last_write_wins max_bytes out_root t s p content = Ok (t', s') ->
  reads s' = reads s.
Proof.
  unfold write_output. destruct (resolve t out_root p) as [target|e]; [|discriminate].
  destruct (FS.lookup t target) as [[]|]; try discriminate;
    repeat match goal with
           | |- context [if ?b then _ else _] => destruct b
           end; try discriminate; intro H; injection H as _ <-; reflexivity.
Qed.

Lemma chargeRead_bound (s s' : sandbox_state) :
  chargeRead m s = Ok s' -> reads s' <= max_file_reads m.
Proof.
  unfold chargeRead. destruct (Nat.leb (max_file_reads m) (reads s)) eqn:E; [discriminate|].
  intro H. injection H as <-. apply Nat.leb_gt in E. simpl. lia.
Qed.

Lemma dispatch_bound (r : run_state) (c : tool_call) :
  reads (sandbox r) <= max_file_reads m ->
  reads (sandbox (snd (dispatch r c))) <= max_file_reads m.
Proof.
  intro H. unfold Core.dispatch.
  destruct (negb _); [exact H|]. destruct c as [p|p content].
  - destruct (resolve (files r) root p) as [target|e]; [|exact H].
    destruct (chargeRead m (sandbox r)) as [s'|e] eqn:Ec; [|exact H].
    apply chargeRead_bound in Ec. rewrite checkDeadline_eq.
    destruct (Nat.ltb _ _); [exact H|]. destruct (FS.read_file _ _); exact Ec.
  - rewrite checkDeadline_eq. destruct (Nat.ltb _ _); [exact H|].
    destruct (write_output _ _ _ _ _ _ _) as [[t' s']|e] eqn:Ew; [|exact H].
    apply write_output_reads in Ew. simpl. lia.
Qed.

Lemma run_calls_bound (calls : list tool_call) :
  forall k r conv, reads (sandbox r) <= max_file_reads m ->
  reads (sandbox (snd (fst (run_calls k r conv calls)))) <= max_file_reads m.
Proof.
  induction calls as [|c rest IH]; intros k r conv H; [exact H|].
  rewrite run_calls_cons, rdc_eq. destruct (Nat.leb _ _); [exact H|].
  set (r0 := mk_run_state (sandbox r) (files r) (S (ticks r))).
  pose proof (dispatch_bound r0 c H) as Hd.
  destruct (dispatch r0 c) as [tr r']. simpl in Hd.
  destruct (is_resource_failure tr); [destruct (Nat.leb 1 k)|]; simpl;
    first [exact Hd | apply IH; exact Hd].
Qed.

Lemma task_loop_bound (fuel : nat) :
  forall k agent r conv, reads (sandbox r) <= max_file_reads m ->
  reads (sandbox (snd (fst (task_loop fuel k agent r conv)))) <= max_file_reads m.
Proof.
  induction fuel as [|fuel IH]; intros k agent r conv H; [exact H|].
  rewrite task_loop_S, rdc_eq. destruct (Nat.leb _ _); [exact H|].
  destruct (agent conv) as [cs|c]; [|exact H].
  set (r0 := mk_run_state (sandbox r) (files r) (S (ticks r))).
  pose proof (run_calls_bound cs k r0 (conv ++ [EAgent (ACalls cs)])%list H) as Hr.
  destruct (run_calls k r0 _ cs) as [[[[] k'] r'] conv']; try exact Hr.
  apply IH. exact Hr.
Qed.

Lemma read_permitted (c : tool_call) :
  In (tool_name c) (tools m) -> existsb (String.eqb (tool_name c)) (tools m) = true.
Proof.
  intro Hin. apply existsb_exists. exists (tool_name c). split; [exact Hin|].
  apply String.eqb_refl.
Qed.

Lemma read_at_cap (r : run_state) (p target : string) :
  In "read_file" (tools m) -> resolve (files r) root p = Ok target ->
  max_file_reads m <= reads (sandbox r) ->
  dispatch r (CReadFile p) = (TErr QuotaExceeded, r).
Proof.
  intros Hin Hres Hcap. unfold Core.dispatch.
  rewrite (read_permitted (CReadFile p) Hin). simpl negb. cbv iota.
  rewrite Hres. unfold chargeRead.
  apply Nat.leb_le in Hcap. rewrite Hcap. reflexivity.
Qed.

Lemma read_below_cap (r : run_state) (p target content : string) :
  In "read_file" (tools m) -> resolve (files r) root p = Ok target ->
  reads (sandbox r) < max_file_reads m -> clock (ticks r) <= max_seconds m ->
  FS.read_file (files r) target = FS.ROk content ->
  dispatch r (CReadFile p) =
  (TOk content, mk_run_state (mk_sandbox_state (S (reads (sandbox r))) (bytes_written (sandbox r)))
                             (files r) (S (ticks r))).
Proof.
  intros Hin Hres Hlt Ht Hrd. unfold Core.dispatch.
  rewrite (read_permitted (CReadFile p) Hin). simpl negb. cbv iota.
  rewrite Hres. unfold chargeRead.
  replace (Nat.leb (max_file_reads m) (reads (sandbox r))) with false
    by (symmetry; apply Nat.leb_gt; exact Hlt).
  rewrite checkDeadline_eq.
  replace (Nat.ltb (max_seconds m) (clock (ticks r))) with false
    by (symmetry; apply Nat.ltb_ge; exact Ht).
  simpl. rewrite Hrd. reflexivity.
Qed.

(** ** Escalation: the last [k] tool results are quota or deadline failures *)

Definition tail_failures (k : nat) (conv : list entry) : Prop :=
  exists pre post, results conv = (pre ++ post)%list /\ length post = k
                   /\ Forall (fun tr => is_resource_failure tr = true) post.

Lemma results_app (c1 c2 : list entry) : results (c1 ++ c2) = (results c1 ++ results c2)%list.
Proof. unfold results. apply flat_map_app. Qed.

Lemma tail_failures_agent (k : nat) (conv : list entry) (t : agent_turn) :
  tail_failures k conv -> tail_failures k (conv ++ [EAgent t])%list.
Proof.
  intros (pre & post & E & L & F). exists pre, post.
  rewrite results_app, E. simpl. rewrite app_nil_r. auto.
Qed.

Lemma run_calls_tail (calls : list tool_call) :
  forall k r conv, tail_failures k conv ->
  match run_calls k r conv calls with
  | (e, k', _, conv') => tail_failures k' conv' /\ (e = CallsExhausted -> 2 <= k')
  end.
Proof.
  induction calls as [|c rest IH]; intros k r conv H.
  - simpl. split; [exact H | discriminate].
  - rewrite run_calls_cons, rdc_eq. destruct (Nat.leb _ _); [split; [exact H | discriminate]|].
    destruct (dispatch _ c) as [tr r'].
    destruct (is_resource_failure tr) eqn:Ef; [destruct (Nat.leb 1 k) eqn:Ek|].
    + split; [|intros _; apply Nat.leb_le in Ek; lia].
      destruct H as (pre & post & E & L & F). exists pre, (post ++ [tr])%list.
      rewrite results_app, E. simpl. rewrite app_assoc, length_app, L. simpl.
      repeat split; [lia|]. apply Forall_app. split; [exact F | constructor; auto].
    + apply IH. exists (results conv), [tr]. rewrite results_app. simpl. auto.
    + apply IH. exists (results (conv ++ [EResult (tool_name c) tr])%list), [].
      rewrite app_nil_r. auto.
Qed.

Lemma two_last {A : Type} (l : list A) :
  2 <= length l -> exists pre a b, l = (pre ++ [a; b])%list.
Proof.
  intro H. destruct (exists_last (l := l)) as (l1 & b & E1); [destruct l; simpl in H; [lia | discriminate]|].
  destruct (exists_last (l := l1)) as (l2 & a & E2).
  { intro E. subst. simpl in H. lia. }
  exists l2, a, b. subst. rewrite <- app_assoc. reflexivity.
Qed.

Lemma task_loop_exhausted (fuel : nat) :
  forall k agent r conv r' conv', tail_failures k conv ->
  task_loop fuel k agent r conv = (ResourceExhausted, r', conv') ->
  exists pre a b, results conv' = (pre ++ [a; b])%list
                  /\ is_resource_failure a = true /\ is_resource_failure b = true.
Proof.
  induction fuel as [|fuel IH]; intros k agent r conv r' conv' Ht H; [discriminate|].
  rewrite task_loop_S, rdc_eq in H. destruct (Nat.leb _ _); [discriminate|].
  destruct (agent conv) as [cs|c]; [|discriminate].
  pose proof (run_calls_tail cs k (mk_run_state (sandbox r) (files r) (S (ticks r)))
                (conv ++ [EAgent (ACalls cs)])%list (tail_failures_agent _ _ _ Ht)) as Hc.
  destruct (run_calls _ _ _ cs) as [[[e k'] r1] conv1].
  destruct Hc as [Ht1 Hx]. destruct e.
  - eapply IH; eassumption.
  - injection H as <- <-. specialize (Hx eq_refl).
    destruct Ht1 as (pre & post & E & L & F).
    destruct (two_last post) as (pre' & a & b & Ep); [lia|]. subst post.
    exists (pre ++ pre')%list, a, b. rewrite E, app_assoc. split; [reflexivity|].
    apply Forall_app in F as [_ F]. inversion F; subst. inversion H2; subst. auto.
  - discriminate.
Qed.

(** ** The iteration ceiling *)

Lemma turns_app (c1 c2 : list entry) : turns (c1 ++ c2) = turns c1 + turns c2.
Proof. unfold turns. rewrite filter_app, length_app. reflexivity. Qed.

Lemma turns_results (es : list entry) :
  Forall (fun e => is_agent e = false) es -> turns es = 0.
Proof.
  induction 1 as [|e es He _ IH]; [reflexivity|].
  unfold turns in *. simpl. unfold is_agent in He. destruct e; try discriminate; exact IH.
Qed.

Lemma run_calls_results (calls : list tool_call) :
  forall k r conv, exists es,
    snd (run_calls k r conv calls) = (conv ++ es)%list
    /\ Forall (fun e => is_agent e = false) es.
Proof.
  induction calls as [|c rest IH]; intros k r conv.
  - exists []. rewrite app_nil_r. auto.
  - rewrite run_calls_cons, rdc_eq. destruct (Nat.leb _ _).
    + exists []. rewrite app_nil_r. auto.
    + destruct (dispatch _ c) as [tr r'].
      assert (Hx : forall k', exists es,
        snd (run_calls k' r' (conv ++ [EResult (tool_name c) tr])%list rest) = (conv ++ es)%list
        /\ Forall (fun e => is_agent e = false) es).
      { intro k'. destruct (IH k' r' (conv ++ [EResult (tool_name c) tr])%list) as (es & E & F).
        exists (EResult (tool_name c) tr :: es). rewrite E, <- app_assoc. split; [reflexivity|].
        constructor; [reflexivity | exact F]. }
      destruct (is_resource_failure tr); [destruct (Nat.leb 1 k)|]; try apply Hx.
      exists [EResult (tool_name c) tr]. split; [reflexivity|]. constructor; [reflexivity | constructor].
Qed.

Lemma task_loop_turns (fuel : nat) :
  forall k agent r conv,
  match task_loop fuel k agent r conv with
  | (st, _, conv') =>
      exists es, conv' = (conv ++ es)%list /\ turns es <= fuel
      /\ (st = IncompleteByIterationLimit ->
          turns es = fuel /\ forall c, ~ In (EAgent (AFinal c)) es)
      /\ (st = Completed -> exists pre c, conv' = (pre ++ [EAgent (AFinal c)])%list)
  end.
Proof.
  induction fuel as [|fuel IH]; intros k agent r conv.
  - exists []. rewrite app_nil_r. repeat split; auto; [discriminate].
  - rewrite task_loop_S, rdc_eq. destruct (Nat.leb _ _).
    { exists []. rewrite app_nil_r. repeat split; try discriminate. apply Nat.le_0_l. }
    destruct (agent conv) as [cs|c].
    + set (r0 := mk_run_state (sandbox r) (files r) (S (ticks r))).
      destruct (run_calls_results cs k r0 (conv ++ [EAgent (ACalls cs)])%list) as (es & E & F).
      destruct (run_calls k r0 _ cs) as [[[e k'] r1] conv1]. simpl in E. subst conv1.
      assert (Ht : turns (EAgent (ACalls cs) :: es) = 1).
      { change (EAgent (ACalls cs) :: es) with ([EAgent (ACalls cs)] ++ es)%list.
        rewrite turns_app, (turns_results es F). reflexivity. }
      assert (Hn : forall c, ~ In (EAgent (AFinal c)) (EAgent (ACalls cs) :: es)).
      { intros c [Hc|Hc]; [discriminate|].
        rewrite Forall_forall in F. specialize (F _ Hc). discriminate. }
      destruct e.
      * specialize (IH k' agent r1 ((conv ++ [EAgent (ACalls cs)]) ++ es)%list).
        destruct (task_loop fuel k' agent r1 _) as [[st r2] conv2].
        destruct IH as (es2 & E2 & L2 & I2 & C2).
        exists (EAgent (ACalls cs) :: es ++ es2)%list.
        rewrite E2, <- !app_assoc. split; [reflexivity|].
        assert (Ht2 : turns (EAgent (ACalls cs) :: es ++ es2) = S (turns es2)).
        { change (EAgent (ACalls cs) :: es ++ es2)%list
            with ((EAgent (ACalls cs) :: es) ++ es2)%list.
          rewrite turns_app, Ht. reflexivity. }
        rewrite Ht2. split; [lia|]. split.
        -- intro Hi. destruct (I2 Hi) as [T N]. split; [lia|].
           intros c Hc. change (EAgent (ACalls cs) :: es ++ es2)%list
             with ((EAgent (ACalls cs) :: es) ++ es2)%list in Hc.
           apply in_app_or in Hc as [Hc|Hc]; [exact (Hn c Hc) | exact (N c Hc)].
        -- intro Hc. destruct (C2 Hc) as (pre & c & Ec). exists pre, c.
           rewrite E2, <- !app_assoc in Ec. exact Ec.
      * exists (EAgent (ACalls cs) :: es). rewrite <- app_assoc. simpl.
        rewrite Ht. repeat split; try discriminate. lia.
      * exists (EAgent (ACalls cs) :: es). rewrite <- app_assoc. simpl.
        rewrite Ht. repeat split; try discriminate. lia.
    + exists [EAgent (AFinal c)]. repeat split; try discriminate.
      * unfold turns. simpl. lia.
      * intros _. exists conv, c. reflexivity.
Qed.

Lemma task_loop_agent_ext (fuel : nat) :
  forall k agent agent' r conv,
  (forall c, turns c < turns conv + fuel -> agent c = agent' c) ->
  task_loop fuel k agent r conv = task_loop fuel k agent' r conv.
Proof.
  induction fuel as [|fuel IH]; intros k agent agent' r conv H; [reflexivity|].
  rewrite !task_loop_S, rdc_eq. destruct (Nat.leb _ _); [reflexivity|].
  rewrite <- (H conv) by lia. destruct (agent conv) as [cs|c]; [|reflexivity].
  set (r0 := mk_run_state (sandbox r) (files r) (S (ticks r))).
  destruct (run_calls_results cs k r0 (conv ++ [EAgent (ACalls cs)])%list) as (es & E & F).
  destruct (run_calls k r0 _ cs) as [[[e k'] r1] conv1]. simpl in E. subst conv1.
  destruct e; try reflexivity. apply IH.
  intros c Hc. apply H. rewrite turns_app, turns_app, (turns_results es F) in Hc.
  change (turns [EAgent (ACalls cs)]) with 1 in Hc. lia.
Qed.

(** ** One turn's calls *)

Lemma run_calls_in_order (calls : list tool_call) :
  forall k r conv, exists es r'',
    snd (run_calls k r conv calls) = (conv ++ es)%list
    /\ in_order m root out_root max_bytes last_write_wins clock run_deadline
         r (firstn (length es) calls) es r''
    /\ (fst (fst (fst (run_calls k r conv calls))) <> CallsDeadline ->
        r'' = snd (fst (run_calls k r conv calls)))
    /\ (fst (fst (fst (run_calls k r conv calls))) = CallsDone -> length es = length calls).
Proof.
  induction calls as [|c rest IH]; intros k r conv.
  - exists [], r. rewrite app_nil_r. simpl.
    split; [reflexivity | split; [constructor | split; intros; reflexivity]].
  - rewrite run_calls_cons. destruct (rdc r) as [reached r0] eqn:Ed. destruct reached.
    + exists [], r. rewrite app_nil_r. cbv iota beta. simpl fst; simpl snd.
      split; [reflexivity | split; [constructor | split]].
      * intro H. exfalso. apply H. reflexivity.
      * intro H. discriminate H.
    + destruct (dispatch r0 c) as [tr r1] eqn:Edi.
      assert (Hx : forall k', exists es r'',
        snd (run_calls k' r1 (conv ++ [EResult (tool_name c) tr])%list rest) = (conv ++ es)%list
        /\ in_order m root out_root max_bytes last_write_wins clock run_deadline
             r (firstn (length es) (c :: rest)) es r''
        /\ (fst (fst (fst (run_calls k' r1 (conv ++ [EResult (tool_name c) tr])%list rest)))
              <> CallsDeadline ->
            r'' = snd (fst (run_calls k' r1 (conv ++ [EResult (tool_name c) tr])%list rest)))
        /\ (fst (fst (fst (run_calls k' r1 (conv ++ [EResult (tool_name c) tr])%list rest)))
              = CallsDone -> length es = length (c :: rest))).
      { intro k'. destruct (IH k' r1 (conv ++ [EResult (tool_name c) tr])%list)
          as (es & r'' & E & O & R & L).
        exists (EResult (tool_name c) tr :: es), r''.
        rewrite E, <- app_assoc. split; [reflexivity|]. split; [|split].
        - simpl. econstructor; eassumption.
        - exact R.
        - intro Hd. simpl. rewrite (L Hd). reflexivity. }
      destruct (is_resource_failure tr); [destruct (Nat.leb 1 k)|]; try apply Hx.
      exists [EResult (tool_name c) tr], r1. cbv iota beta. simpl fst; simpl snd.
      split; [reflexivity | split; [| split]].
      * econstructor; [exact Ed | exact Edi | constructor].
      * intros _. reflexivity.
      * intro H. discriminate H.
Qed.

End Run.



End CoreProps.

(** * The task loop: iterations and the order of tool calls (section 4.4),
      and the query script of src/unnamed/part_009 *)

Module TaskLoopProps.
Import Core.




End TaskLoopProps.

(* ------------------------------------------------------------------ *)
(** ** Output writer (modelled from the spec) *)

Module WriterProps.
Import Core.

Lemma lookup_update (t : FS.fs) (p q : string) (n : FS.node) :
  FS.lookup (update t p n) q = if String.eqb q p then Some n else FS.lookup t q.
Proof.
  induction t as [|[k v] t IH]; simpl.
  - destruct (String.eqb p q) eqn:E1, (String.eqb q p) eqn:E2; auto;
      apply String.eqb_eq in E1 || apply String.eqb_eq in E2; subst;
      rewrite String.eqb_refl in *; discriminate.
  - destruct (String.eqb k p) eqn:Ek; simpl.
    + apply String.eqb_eq in Ek. subst k.
      destruct (String.eqb p q) eqn:E1, (String.eqb q p) eqn:E2; auto;
        apply String.eqb_eq in E1 || apply String.eqb_eq in E2; subst;
        rewrite String.eqb_refl in *; discriminate.
    + rewrite IH. destruct (String.eqb k q) eqn:E1; [|reflexivity].
      apply String.eqb_eq in E1. subst k.
      destruct (String.eqb q p) eqn:E2; [|reflexivity].
      apply String.eqb_eq in E2. subst. discriminate.
Qed.

Lemma update_idem (t : FS.fs) (p : string) (n : FS.node) :
  update (update t p n) p n = update t p n.
Proof.
  induction t as [|[k v] t IH]; simpl.
  - now rewrite String.eqb_refl.
  - destruct (String.eqb k p) eqn:E; simpl; rewrite E; [reflexivity|]. now rewrite IH.
Qed.

Lemma canonical_nonlink (fuel : nat) (t : FS.fs) (p c x : string) :
  canonical_fuel fuel t p = Some c -> FS.lookup t c <> Some (FS.NLink x).
Proof.
  revert p; induction fuel as [|fuel IH]; intros p H; simpl in H; [discriminate|].
  destruct (FS.lookup t p) as [[| |y]|] eqn:E; try (injection H as <-; rewrite E; discriminate).
  eapply IH. exact H.
Qed.

(** Canonicalisation ends at the same path in any filesystem that agrees
    off the end point and has no link there. *)
Lemma canonical_stable (fuel : nat) (t t' : FS.fs) (target : string) :
  (forall q, q <> target -> FS.lookup t' q = FS.lookup t q) ->
  (forall x, FS.lookup t' target <> Some (FS.NLink x)) ->
  forall p, canonical_fuel fuel t p = Some target -> canonical_fuel fuel t' p = Some target.
Proof.
  intros Hoff Hat. induction fuel as [|fuel IH]; intros p H; simpl in H |- *; [discriminate|].
  destruct (FS.lookup t p) as [[c| |y]|] eqn:E.
  - injection H as <-. destruct (FS.lookup t' p) as [[| |y]|] eqn:E'; auto.
    exfalso. exact (Hat y eq_refl).
  - injection H as <-. destruct (FS.lookup t' p) as [[| |y]|] eqn:E'; auto.
    exfalso. exact (Hat y eq_refl).
  - assert (Hp : p <> target).
    { intros ->. eapply canonical_nonlink; [exact H|]. exact E. }
    rewrite (Hoff p Hp), E. apply IH. exact H.
  - injection H as <-. destruct (FS.lookup t' p) as [[| |y]|] eqn:E'; auto.
    exfalso. exact (Hat y eq_refl).
Qed.

Lemma resolve_after_write (t : FS.fs) (root p target content : string) :
  resolve t root p = Ok target ->
  resolve (update t target (FS.NFile content)) root p = Ok target.
Proof.
  unfold resolve, canonical.
  destruct (canonical_fuel 41 t _) as [c|] eqn:Ec; [|discriminate].
  destruct (Path.within root c) eqn:Ew; [|discriminate]. intro H. injection H as <-.
  erewrite canonical_stable; [rewrite Ew; reflexivity | | | exact Ec].
  - intros q Hq. rewrite lookup_update. destruct (String.eqb_spec q c); [contradiction|reflexivity].
  - intro x. rewrite lookup_update, String.eqb_refl. discriminate.
Qed.

(** C8.  [write_output] is idempotent on identical input: after a write of
    [content] at [p] succeeds, the path resolves to the same file, which
    holds exactly [content]; writing the same content at the same path
    again either leaves the very same file tree (only when last-write-wins
    was requested) or fails — with [AlreadyExists] when last-write-wins
    was not requested, with [QuotaExceeded] when the byte budget is spent —
    leaving that file as it was. *)
Theorem write_output_idempotent (last_write_wins : bool) (max_bytes : nat)
  (out_root : string) (t : FS.fs) (s : sandbox_state) (p content : string) :
  match write_output last_write_wins max_bytes out_root t s p content with
  | Fail _ => True
  | Ok (t1, s1) =>
      exists target,
        resolve t out_root p = Ok target /\ resolve t1 out_root p = Ok target
        /\ FS.lookup t1 target = Some (FS.NFile content)
        /\ match write_output last_write_wins max_bytes out_root t1 s1 p content with
           | Ok (t2, _) => last_write_wins = true /\ t2 = t1
           | Fail e => (last_write_wins = false /\ e = AlreadyExists)
                       \/ (last_write_wins = true /\ e = QuotaExceeded)
           end
  end.
Proof.
  unfold write_output at 1.
  destruct (resolve t out_root p) as [target|e] eqn:Hr; [|exact I].
  set (t1 := update t target (FS.NFile content)).
  assert (Hr1 : resolve t1 out_root p = Ok target) by (apply resolve_after_write; exact Hr).
  assert (Hl1 : FS.lookup t1 target = Some (FS.NFile content))
    by (unfold t1; rewrite lookup_update, String.eqb_refl; reflexivity).
  assert (Hsecond : forall s1,
    match write_output last_write_wins max_bytes out_root t1 s1 p content with
    | Ok (t2, _) => last_write_wins = true /\ t2 = t1
    | Fail e => (last_write_wins = false /\ e = AlreadyExists)
                \/ (last_write_wins = true /\ e = QuotaExceeded)
    end).
  { intro s1. unfold write_output. rewrite Hr1, Hl1.
    destruct last_write_wins; [|left; auto].
    destruct (Nat.ltb _ _); [right; auto|]. split; [reflexivity|]. apply update_idem. }
  destruct (FS.lookup t target) as [[| |]|];
    repeat match goal with |- context [if ?b then _ else _] => destruct b end;
    try exact I; exists target; repeat split; auto; apply Hsecond.
Qed.

End WriterProps.

(* ------------------------------------------------------------------ *)
(** ** Task ordering (modelled from the spec) *)

Module TaskGraphProps.
Import TaskGraph.

Lemma pick_spec (done : list string) (pending rest : list task_spec) (t : task_spec) :
  pick done pending = Some (t, rest) ->
  exists pre post, pending = (pre ++ t :: post)%list /\ rest = (pre ++ post)%list
    /\ Forall (fun u => ready done u = false) pre /\ ready done t = true.
Proof.
  revert rest; induction pending as [|u pending IH]; intros rest H; simpl in H; [discriminate|].
  destruct (ready done u) eqn:Eu.
  - injection H as <- <-. exists [], pending. repeat split; auto.
  - destruct (pick done pending) as [[t' rest']|] eqn:Ep; [|discriminate].
    injection H as <- <-. destruct (IH rest' eq_refl) as (pre & post & -> & -> & Hpre & Ht).
    exists (u :: pre), post. repeat split; auto.
Qed.

Lemma topo_kahn (fuel : nat) :
  forall done pending order, topo fuel done pending = inl order -> kahn_order done pending order.
Proof.
  induction fuel as [|fuel IH]; intros done pending order H;
    destruct pending as [|p ps]; cbn [topo] in H; try discriminate;
    try (injection H as <-; constructor).
  destruct (pick done (p :: ps)) as [[t rest]|] eqn:Ep; [|discriminate].
  destruct (topo fuel (done ++ [id t]) rest) as [o|e] eqn:Et; [|discriminate].
  injection H as <-.
  destruct (pick_spec _ _ _ _ Ep) as (pre & post & Hpp & -> & Hpre & Ht).
  rewrite Hpp. constructor; auto.
Qed.

Lemma kahn_perm (done : list string) (pending order : list task_spec) :
  kahn_order done pending order -> Permutation order pending.
Proof.
  induction 1 as [|done pre t post order Hpre Ht Hk IH]; [constructor|].
  rewrite IH. apply Permutation_middle.
Qed.

Lemma mem_In (x : string) (l : list string) : mem x l = true -> In x l.
Proof.
  unfold mem. intro H. apply existsb_exists in H as [y [Hy E]].
  apply String.eqb_eq in E. now subst.
Qed.

Lemma kahn_deps (done : list string) (pending order : list task_spec) :
  kahn_order done pending order ->
  forall i t d, nth_error order i = Some t -> In d (depends_on t) ->
  In d done \/ exists j u, j < i /\ nth_error order j = Some u /\ id u = d.
Proof.
  induction 1 as [done|done pre t0 post order Hpre Ht Hk IH];
    intros i t d Hi Hd; [destruct i; discriminate|].
  destruct i as [|i]; simpl in Hi.
  - injection Hi as <-. left. unfold ready in Ht. rewrite forallb_forall in Ht.
    apply mem_In, Ht, Hd.
  - destruct (IH i t d Hi Hd) as [Hin | (j & u & Hj & Hu & Eu)].
    + apply in_app_or in Hin as [Hin | [<- | []]]; [now left|].
      right. exists 0, t0. repeat split; auto. lia.
    + right. exists (S j), u. repeat split; auto. lia.
Qed.

Lemma first_ready_unique (done : list string) (pre pre' post post' : list task_spec)
  (t t' : task_spec) :
  (pre ++ t :: post)%list = (pre' ++ t' :: post')%list ->
  Forall (fun u => ready done u = false) pre -> ready done t = true ->
  Forall (fun u => ready done u = false) pre' -> ready done t' = true ->
  pre = pre' /\ t = t' /\ post = post'.
Proof.
  revert pre'; induction pre as [|a pre IH]; intros pre' E Hp Ht Hp' Ht';
    destruct pre' as [|a' pre']; simpl in E; injection E as E1 E2.
  - subst. auto.
  - subst. inversion Hp'; congruence.
  - subst. inversion Hp; congruence.
  - subst. inversion Hp; inversion Hp'; subst.
    destruct (IH pre' E2) as (-> & -> & ->); auto.
Qed.

(** The spec's rule determines one order. *)
Lemma kahn_deterministic (done : list string) (pending o1 o2 : list task_spec) :
  kahn_order done pending o1 -> kahn_order done pending o2 -> o1 = o2.
Proof.
  intro H1. revert o2. induction H1 as [done|done pre t post order Hpre Ht Hk IH];
    intros o2 H2; inversion H2 as [d' E1 E2 | d' pre' t' post' order' Hpre' Ht' Hk' E1 E2 E3];
    subst.
  - reflexivity.
  - destruct pre'; discriminate.
  - destruct pre; discriminate.
  - destruct (first_ready_unique _ _ _ _ _ _ _ (eq_sym E2) Hpre Ht Hpre' Ht')
      as (-> & -> & ->).
    f_equal. apply IH. exact Hk'.
Qed.

Lemma nodup_id_nth (l : list task_spec) (i j : nat) (t u : task_spec) :
  NoDup (map id l) -> nth_error l i = Some t -> nth_error l j = Some u -> id t = id u -> i = j.
Proof.
  intros N Ht Hu E. pose proof (proj1 (NoDup_nth_error (map id l)) N i j) as N'.
  apply N'.
  - apply nth_error_Some. rewrite nth_error_map, Ht. discriminate.
  - rewrite !nth_error_map, Ht, Hu. simpl. now rewrite E.
Qed.

(** Along a dependency path from [a] to [c], [c]'s task comes before [a]'s. *)
Lemma path_earlier (tasks order : list task_spec) :
  Permutation order tasks -> NoDup (map id order) ->
  (forall i t d, nth_error order i = Some t -> In d (depends_on t) ->
     exists j u, j < i /\ nth_error order j = Some u /\ id u = d) ->
  forall a c, clos_trans _ (edge tasks) a c ->
  forall i t, nth_error order i = Some t -> id t = a ->
  exists j u, j < i /\ nth_error order j = Some u /\ id u = c.
Proof.
  intros P N D a c H. induction H as [a c (t' & Ht' & Ea & Hc)|a b c Hab IHab Hbc IHbc];
    intros i t Hi Et.
  - apply (Permutation_in _ (Permutation_sym P)) in Ht'.
    apply In_nth_error in Ht' as [i' Hi'].
    assert (i' = i) as -> by (apply (nodup_id_nth order i' i t' t N Hi' Hi); congruence).
    rewrite Hi in Hi'. injection Hi' as ->. eapply D; eauto.
  - destruct (IHab i t Hi Et) as (j & u & Hj & Hu & Eu).
    destruct (IHbc j u Hu Eu) as (k & w & Hk & Hw & Ew).
    exists k, w. repeat split; auto. lia.
Qed.

(** C5.  When the task graph orders the tasks, the order is the one the
    spec's rule gives (first ready task in declaration order at every
    step, a rule with exactly one outcome), a permutation of the tasks,
    and every dependency of a task is placed before it.  With unique task
    ids, a dependency cycle makes the ordering fail with
    [CyclicDependency], and then the run executes no task. *)
Theorem task_order_topological (tasks : list task_spec) :
  (forall order, execution_order tasks = inl order ->
     kahn_order [] tasks order
     /\ (forall order', kahn_order [] tasks order' -> order' = order)
     /\ Permutation order tasks
     /\ forall i t d, nth_error order i = Some t -> In d (depends_on t) ->
          exists j u, j < i /\ nth_error order j = Some u /\ id u = d)
  /\ (NoDup (map id tasks) -> forall a, clos_trans _ (edge tasks) a a ->
        exists stuck, execution_order tasks = inr (CyclicDependency stuck))
  /\ (forall (R : Type) (exec : task_spec -> R) e,
        execution_order tasks = inr e -> run exec tasks = inr e).
Proof.
  assert (Hok : forall order, execution_order tasks = inl order ->
     kahn_order [] tasks order
     /\ (forall order', kahn_order [] tasks order' -> order' = order)
     /\ Permutation order tasks
     /\ forall i t d, nth_error order i = Some t -> In d (depends_on t) ->
          exists j u, j < i /\ nth_error order j = Some u /\ id u = d).
  { intros order H. apply topo_kahn in H.
    split; [exact H|]. split; [intros o' H'; exact (kahn_deterministic _ _ _ _ H' H)|].
    split; [exact (kahn_perm _ _ _ H)|].
    intros i t d Hi Hd. destruct (kahn_deps _ _ _ H i t d Hi Hd) as [[]|Hj]. exact Hj. }
  split; [exact Hok|]. split.
  - intros N a Hc. destruct (execution_order tasks) as [order|[stuck]] eqn:E; [|eauto].
    exfalso. destruct (Hok order eq_refl) as (_ & _ & P & D).
    assert (N' : NoDup (map id order))
      by (apply (Permutation_NoDup (Permutation_map id (Permutation_sym P))); exact N).
    assert (Hstart : forall x y, clos_trans _ (edge tasks) x y ->
                     exists t, In t tasks /\ id t = x).
    { intros x y Hxy. induction Hxy as [x y (t & Ht & Ex & _)|x y z Hxy IH _ _]; eauto. }
    destruct (Hstart a a Hc) as (t & Ht & Ea).
    apply (Permutation_in _ (Permutation_sym P)) in Ht. apply In_nth_error in Ht as [i Hi].
    destruct (path_earlier tasks order P N' D a a Hc i t Hi Ea) as (j & u & Hj & Hu & Eu).
    assert (j = i) by (apply (nodup_id_nth order j i u t N' Hu Hi); congruence). lia.
  - intros R exec e H. unfold run. now rewrite H.
Qed.

End TaskGraphProps.

(* ------------------------------------------------------------------ *)
(** ** Segment stacks of normalised paths *)

Module StackFacts.
Import Path PathFacts.

Lemma good_no_slash (g : string) : good_seg g = true -> no_slash g = true.
Proof. unfold good_seg. intro H. now apply andb_prop in H as [_ H]. Qed.

Lemma good_nonempty (g : string) : good_seg g = true -> g <> "".
Proof. intros H ->. discriminate. Qed.

Lemma stack_good (q : string) : Forall (fun x => good_seg x = true) (stack q).
Proof.
  apply fold_good_stack; [|constructor].
  apply split_acc_no_slash_elems. reflexivity.
Qed.

Lemma stack_snoc (q g : string) :
  good_seg g = true -> stack (q ++ String slash g) = g :: stack q.
Proof.
  intro Hg. unfold stack, split_slash.
  rewrite split_acc_slash_app. unfold split_slash.
  rewrite (split_acc_noslash g "") by (now apply good_no_slash).
  rewrite fold_left_app. simpl. now apply norm_step_good.
Qed.

Lemma no_slash_not_ends (s : string) : no_slash s = true -> ends_with_slash s = false.
Proof.
  unfold ends_with_slash. induction s as [|c s IH]; simpl; [reflexivity|].
  intro H. apply andb_prop in H as [H1 H2]. apply negb_true_iff in H1.
  destruct s as [|d s']; [exact H1|]. exact (IH H2).
Qed.

Lemma ends_with_slash_app (s t : string) :
  t <> "" -> ends_with_slash (s ++ t) = ends_with_slash t.
Proof. intro Ht. unfold ends_with_slash. now rewrite last_char_app. Qed.

Lemma join_with_nonempty (S : list string) :
  S <> [] -> Forall (fun x => good_seg x = true) S -> join_with "/" S <> "".
Proof.
  intros Hne Hg. destruct S as [|x S']; [contradiction|].
  destruct (join_with_head "/" x S') as [w Hw]. rewrite Hw.
  inversion Hg as [|? ? Hx _]; subst. apply good_nonempty in Hx.
  destruct x; [contradiction | discriminate].
Qed.

(** [normalize] of an absolute path without trailing slash whose stack is
    not empty. *)
Lemma normalize_stack (q : string) :
  starts_with_slash q = true -> ends_with_slash q = false -> stack q <> [] ->
  normalize q = "/" ++ join_with "/" (rev (stack q)).
Proof.
  intros Ha He Hs. unfold normalize.
  assert (Eq : String.eqb q "" = false) by (destruct q; [discriminate | reflexivity]).
  rewrite Eq, Ha, He. simpl negb.
  change (normalize_string false q) with (join_with "/" (rev (stack q))).
  assert (Hj : join_with "/" (rev (stack q)) <> "").
  { apply join_with_nonempty.
    - intro E. apply Hs. apply (f_equal (@rev string)) in E. now rewrite rev_involutive in E.
    - apply Forall_rev, stack_good. }
  apply String.eqb_neq in Hj. rewrite Hj. reflexivity.
Qed.

Lemma normalize_snoc (q g : string) :
  starts_with_slash q = true -> good_seg g = true ->
  normalize (q ++ String slash g) = "/" ++ join_with "/" (rev (g :: stack q)).
Proof.
  intros Ha Hg. rewrite <- stack_snoc by exact Hg.
  apply normalize_stack.
  - rewrite starts_with_slash_app; [exact Ha | destruct q; [discriminate | discriminate]].
  - replace (q ++ String slash g) with ((q ++ "/") ++ g)
      by (rewrite str_app_assoc; reflexivity).
    rewrite ends_with_slash_app by (now apply good_nonempty).
    apply no_slash_not_ends, good_no_slash, Hg.
  - rewrite stack_snoc by exact Hg. discriminate.
Qed.

Lemma split_normal (S : list string) :
  S <> [] -> Forall (fun x => good_seg x = true) S ->
  split_slash ("/" ++ join_with "/" (rev S)) = "" :: rev S.
Proof.
  intros Hne Hg. unfold split_slash. simpl. f_equal.
  apply join_with_split.
  - intro E. apply Hne. apply (f_equal (@rev string)) in E. now rewrite rev_involutive in E.
  - apply Forall_rev. eapply Forall_impl; [|exact Hg]. exact good_no_slash.
Qed.

Lemma stack_normal (S : list string) :
  S <> [] -> Forall (fun x => good_seg x = true) S ->
  stack ("/" ++ join_with "/" (rev S)) = S.
Proof.
  intros Hne Hg. unfold stack. rewrite split_normal by assumption. simpl.
  rewrite fold_push by (apply good_not_dotdot, Forall_rev, Hg).
  rewrite filter_good by (apply Forall_rev, Hg).
  now rewrite app_nil_r, rev_involutive.
Qed.

(** [join(a, g)] for a normalised absolute directory [a] and a plain
    segment [g]. *)
Lemma join_seg (a g : string) :
  starts_with_slash a = true -> good_seg g = true ->
  join a g = "/" ++ join_with "/" (rev (g :: stack a)).
Proof.
  intros Ha Hg. unfold join, join_all. simpl filter.
  assert (Ea : String.eqb a "" = false) by (destruct a; [discriminate | reflexivity]).
  assert (Eg : String.eqb g "" = false) by (apply String.eqb_neq, good_nonempty, Hg).
  rewrite Ea, Eg. simpl.
  assert (Ej : String.eqb (a ++ String "/" g) "" = false) by (destruct a; [discriminate | reflexivity]).
  rewrite Ej. now apply normalize_snoc.
Qed.

(** [join(home, a, b)] for an absolute [home] and plain segments. *)
Lemma join_all3 (home a b : string) :
  is_absolute home = true -> good_seg a = true -> good_seg b = true ->
  join_all [home; a; b] = "/" ++ join_with "/" (rev (b :: a :: stack home)).
Proof.
  intros Hh Ha Hb. unfold join_all. simpl filter.
  assert (Eh : String.eqb home "" = false) by (destruct home; [discriminate | reflexivity]).
  assert (Ea : String.eqb a "" = false) by (apply String.eqb_neq, good_nonempty, Ha).
  assert (Eb : String.eqb b "" = false) by (apply String.eqb_neq, good_nonempty, Hb).
  rewrite Eh, Ea, Eb. simpl.
  assert (Ej : String.eqb (home ++ String "/" (a ++ String "/" b)) "" = false)
    by (destruct home; [discriminate | reflexivity]).
  rewrite Ej.
  replace (home ++ String "/" (a ++ String "/" b)) with ((home ++ String slash a) ++ String slash b)
    by (rewrite str_app_assoc; reflexivity).
  rewrite normalize_snoc; [| |exact Hb].
  - now rewrite stack_snoc by exact Ha.
  - rewrite starts_with_slash_app; [exact Hh | destruct home; discriminate].
Qed.

Lemma prefix_split (a b : string) : String.prefix a b = true -> exists w, b = a ++ w.
Proof.
  revert b; induction a as [|c a IH]; intros b H; [now exists b|].
  destruct b as [|d b]; [discriminate|]. simpl in H.
  destruct (ascii_dec c d) as [<-|]; [|discriminate].
  destruct (IH b H) as [w ->]. now exists w.
Qed.

(** A normalised path lies within a normalised directory only if the
    directory's segments begin its own. *)
Lemma within_stack (R P : list string) :
  R <> [] -> Forall (fun x => good_seg x = true) R ->
  P <> [] -> Forall (fun x => good_seg x = true) P ->
  within ("/" ++ join_with "/" (rev R)) ("/" ++ join_with "/" (rev P)) = true ->
  exists w, rev P = (rev R ++ w)%list.
Proof.
  intros HR GR HP GP H. unfold within in H. apply orb_true_iff in H as [H|H].
  - apply String.eqb_eq in H. exists []. rewrite app_nil_r.
    apply (f_equal stack) in H. rewrite !stack_normal in H by assumption. now subst.
  - apply prefix_split in H as [w Hw].
    exists (split_slash w).
    apply (f_equal split_slash) in Hw. rewrite split_normal in Hw by assumption.
    rewrite str_app_assoc in Hw. unfold split_slash at 1 in Hw. simpl in Hw.
    unfold split_slash in Hw. rewrite split_acc_slash_app in Hw.
    fold (split_slash (join_with "/" (rev R))) in Hw.
    rewrite join_with_split in Hw.
    + now injection Hw.
    + intro E. apply HR. apply (f_equal (@rev string)) in E. now rewrite rev_involutive in E.
    + apply Forall_rev. eapply Forall_impl; [|exact GR]. exact good_no_slash.
Qed.

End StackFacts.

(* ------------------------------------------------------------------ *)
(** ** The docpack viewer endpoint *)

Module ViewerProps.
Import Json Http FileTree ViewerEndpoint Path PathFacts StackFacts.

Lemma stack_docpack (home id : string) :
  no_slash id = true ->
  (id ++ ".docpack") :: "docpacks" :: ".localdoc" :: stack home <> []
  /\ Forall (fun x => good_seg x = true) ((id ++ ".docpack") :: "docpacks" :: ".localdoc" :: stack home).
Proof.
  intro Hi. split; [discriminate|].
  constructor; [now apply good_docpack_seg|].
  constructor; [reflexivity|]. constructor; [reflexivity|]. apply stack_good.
Qed.

Lemma viewer_path_form (home id : string) :
  is_absolute home = true -> no_slash id = true ->
  docpack_path home id =
  "/" ++ join_with "/" (rev ((id ++ ".docpack") :: "docpacks" :: ".localdoc" :: stack home)).
Proof.
  intros Hh Hi. unfold docpack_path, OUTPUT_DIR.
  rewrite join_all3 by (assumption || reflexivity).
  rewrite join_seg by (reflexivity || now apply good_docpack_seg).
  rewrite stack_normal; [reflexivity | discriminate |].
  constructor; [reflexivity|]. constructor; [reflexivity|]. apply stack_good.
Qed.

Lemma outputs_dir_form (home : string) :
  is_absolute home = true ->
  FileEndpoint.OUTPUT_DIR home = "/" ++ join_with "/" (rev ("outputs" :: ".localdoc" :: stack home)).
Proof. intro Hh. unfold FileEndpoint.OUTPUT_DIR. now rewrite join_all3. Qed.

(** The viewer reads [~/.localdoc/docpacks], while the upload writes and
    the list, file and query endpoints read [~/.localdoc/outputs]: when
    nothing outside [~/.localdoc/outputs] exists, the viewer answers 404
    for every docpack id without a slash. *)
Theorem viewer_misses_outputs (json_parse : string -> string + jvalue)
  (localeCompare : string -> string -> comparison) (fuel : nat)
  (o : io) (home id : string) :
  is_absolute home = true -> no_slash id = true ->
  (forall p, stat_size o p <> None -> within (FileEndpoint.OUTPUT_DIR home) p = true) ->
  GET json_parse localeCompare fuel o home id
  = json_status (error_body ("Docpack not found: " ++ id)) 404.
Proof.
  intros Hh Hi Hs. unfold GET.
  destruct (stat_size o (docpack_path home id)) as [sz|] eqn:E; [exfalso|reflexivity].
  assert (Hw : within (FileEndpoint.OUTPUT_DIR home) (docpack_path home id) = true)
    by (apply Hs; rewrite E; discriminate).
  rewrite viewer_path_form, outputs_dir_form in Hw by assumption.
  destruct (stack_docpack home id Hi) as [Hne Hg].
  apply within_stack in Hw as [w Hw]; [| discriminate | | exact Hne | exact Hg].
  - simpl in Hw. rewrite <- !app_assoc in Hw. apply app_inv_head in Hw.
    simpl in Hw. injection Hw as Hd _. discriminate Hd.
  - constructor; [reflexivity|]. constructor; [reflexivity|]. apply stack_good.
Qed.

Lemma viewer_misses_outputs_witness :
  GET (fun _ => inr JNull) (fun _ _ => Eq) 3
    (mk_io (fun p => if within (FileEndpoint.OUTPUT_DIR "/home/u") p then Some 0%N else None)
           (fun _ => FS.ROk "{}") (fun _ => None))
    "/home/u" "proj"
  = json_status (error_body ("Docpack not found: " ++ "proj")) 404.
Proof.
  apply viewer_misses_outputs; [reflexivity | reflexivity |].
  intros p. simpl. destruct (within (FileEndpoint.OUTPUT_DIR "/home/u") p);
    [reflexivity | intro H; exfalso; apply H; reflexivity].
Defined.

Lemma output_entries_spec (o : io) (od : string) (items : list dirent) :
  output_entries o od (map d_name items)
  = if forallb (fun d => match stat_size o (Path.join od (d_name d)) with
                         | Some _ => true | None => false end) items
    then Some (map (fun d => JObj [("name", JStr (d_name d)); ("path", JStr (d_name d));
                                   ("size", JNum (match stat_size o (Path.join od (d_name d)) with
                                                  | Some s => Z.of_N s | None => 0%Z end))])
                   items)
    else None.
Proof.
  induction items as [|d items IH]; simpl; [reflexivity|].
  destruct (stat_size o (Path.join od (d_name d))); simpl; [|reflexivity].
  rewrite IH. destruct (forallb _ items); reflexivity.
Qed.

(** The viewer answers 200 exactly when the docpack directory can be
    stat'ed and its [docpack.json] read and parsed; a missing or unreadable
    [files] tree or [output] directory never turns the answer into an
    error. *)
Theorem viewer_get_ok_iff (json_parse : string -> string + jvalue)
  (localeCompare : string -> string -> comparison) (fuel : nat)
  (o : io) (home id : string) :
  status (GET json_parse localeCompare fuel o home id) = 200%Z
  <-> exists sz data m,
        stat_size o (docpack_path home id) = Some sz
        /\ read_text o (Path.join (docpack_path home id) "docpack.json") = FS.ROk data
        /\ json_parse data = inr m.
Proof.
  unfold GET.
  destruct (stat_size o (docpack_path home id)) as [sz|] eqn:E1.
  - destruct (read_text o _) as [data|msg] eqn:E2.
    + destruct (json_parse data) as [msg|m] eqn:E3.
      * split; [discriminate|]. intros (sz' & data' & m' & _ & H2 & H3).
        injection H2 as <-. congruence.
      * split; [intros _; exists sz, data, m; auto | intros _; reflexivity].
    + split; [discriminate|]. intros (sz' & data' & m' & _ & H2 & _). discriminate.
  - split; [discriminate|]. intros (sz' & _ & _ & H1 & _). discriminate.
Qed.

(** The output listing is all or nothing: once the docpack loads and its
    [output] directory can be read, the answer lists every entry of that
    directory in [readdir] order with its name and size if every entry can
    be stat'ed, and no entry at all if one of them cannot. *)
Theorem viewer_outputs_all_or_nothing (json_parse : string -> string + jvalue)
  (localeCompare : string -> string -> comparison) (fuel : nat)
  (o : io) (home id : string) (sz : N) (data : string) (m : jvalue) (items : list dirent) :
  stat_size o (docpack_path home id) = Some sz ->
  read_text o (Path.join (docpack_path home id) "docpack.json") = FS.ROk data ->
  json_parse data = inr m ->
  read_dir o (Path.join (docpack_path home id) "output") = Some items ->
  let od := Path.join (docpack_path home id) "output" in
  exists files,
    GET json_parse localeCompare fuel o home id
    = json (JObj [("manifest", m); ("files", JArr files);
                  ("outputs", JArr
                     (if forallb (fun d => match stat_size o (Path.join od (d_name d)) with
                                           | Some _ => true | None => false end) items
                      then map (fun d => JObj [("name", JStr (d_name d)); ("path", JStr (d_name d));
                                               ("size", JNum (match stat_size o (Path.join od (d_name d)) with
                                                              | Some s => Z.of_N s | None => 0%Z end))])
                               items
                      else []))]).
Proof.
  intros E1 E2 E3 E4 od. subst od. unfold GET. rewrite E1, E2, E3. cbv zeta. rewrite E4.
  rewrite output_entries_spec. eexists.
  destruct (forallb _ items); reflexivity.
Qed.

Lemma viewer_outputs_all_or_nothing_witness :
  let o := mk_io (fun p => if String.eqb p "/home/u/.localdoc/docpacks/x.docpack/output/b.md"
                           then None else Some 7%N)
                 (fun _ => FS.ROk "{}")
                 (fun p => if String.eqb p "/home/u/.localdoc/docpacks/x.docpack/output"
                           then Some [mk_dirent "a.md" false; mk_dirent "b.md" false] else None) in
  exists files,
    GET (fun _ => inr JNull) (fun _ _ => Eq) 3 o "/home/u" "x"
    = json (JObj [("manifest", JNull); ("files", JArr files); ("outputs", JArr [])]).
Proof.
  intro o.
  exact (viewer_outputs_all_or_nothing (fun _ => inr JNull) (fun _ _ => Eq) 3 o "/home/u" "x"
           7%N "{}" JNull [mk_dirent "a.md" false; mk_dirent "b.md" false]
           ltac:(vm_compute; reflexivity) ltac:(vm_compute; reflexivity) eq_refl
           ltac:(vm_compute; reflexivity)).
Defined.

End ViewerProps.

(* ------------------------------------------------------------------ *)
(** ** The shape of the file tree, and the viewer page's file list *)

Module FileTreeShape.
Import FileTree.

Lemma forallb_perm {A : Type} (f : A -> bool) (l1 l2 : list A) :
  Permutation l1 l2 -> forallb f l1 = forallb f l2.
Proof.
  induction 1 as [|x l1 l2 _ IH|x y l|l1 l2 l3 _ IH1 _ IH2]; simpl.
  - reflexivity.
  - now rewrite IH.
  - now rewrite !andb_assoc, (andb_comm (f y)).
  - congruence.
Qed.

Lemma collect_paths_ok (build : string -> string -> option (list file_node))
  (dir basePath : string) (items : list dirent) (l : list file_node) :
  (forall d b ch, build d b = Some ch -> forallb (node_paths_ok b) ch = true) ->
  collect build dir basePath items = Some l -> forallb (node_paths_ok basePath) l = true.
Proof.
  intro Hb. revert l; induction items as [|it rest IH]; intros l H; simpl in H.
  - now injection H as <-.
  - destruct (item_node build dir basePath it) as [n|] eqn:Ei; [|discriminate].
    destruct (collect build dir basePath rest) as [l'|] eqn:Er; [|discriminate].
    injection H as <-. simpl. rewrite (IH l' eq_refl), andb_true_r.
    unfold item_node in Ei. destruct (d_is_directory it).
    + destruct (build _ _) as [ch|] eqn:Ec; [|discriminate]. injection Ei as <-.
      simpl. rewrite String.eqb_refl. simpl. exact (Hb _ _ _ Ec).
    + injection Ei as <-. simpl. now rewrite String.eqb_refl.
Qed.

(** Every tree [buildFileTree] returns records, for each node, the path
    relative to the directory it started from: the node's name, prefixed
    with its parent's path and a slash below the top level.  Files carry
    no [children], directories do, and the same holds at every depth. *)
Theorem build_paths_ok (localeCompare : string -> string -> comparison)
  (readdir : string -> option (list dirent)) (fuel : nat) (dir basePath : string)
  (l : list file_node) :
  buildFileTree localeCompare readdir fuel dir basePath = Some l ->
  forallb (node_paths_ok basePath) l = true.
Proof.
  revert dir basePath l; induction fuel as [|f IH]; intros dir basePath l H; simpl in H;
    [discriminate|].
  destruct (readdir dir) as [items|]; [|discriminate].
  destruct (collect _ dir basePath items) as [l'|] eqn:C; simpl in H; [|discriminate].
  injection H as <-. rewrite (forallb_perm _ _ _ (FileTreeProps.sort_perm localeCompare l')).
  exact (collect_paths_ok _ dir basePath items l' IH C).
Qed.

Lemma build_paths_ok_witness :
  let rd := fun d => if String.eqb d "/f" then Some [mk_dirent "src" true; mk_dirent "a.md" false]
                     else if String.eqb d "/f/src" then Some [mk_dirent "m.rs" false]
                     else None in
  match buildFileTree String.compare rd 3 "/f" "" with
  | Some l => forallb (node_paths_ok "") l = true
  | None => False
  end.
Proof.
  intro rd.
  destruct (buildFileTree String.compare rd 3 "/f" "") as [l|] eqn:E.
  - exact (build_paths_ok String.compare rd 3 "/f" "" l E).
  - vm_compute in E. discriminate E.
Defined.

End FileTreeShape.

Module ViewerPageProps.
Import FileTree ViewerPage.

(** The sidebar list of the viewer page holds exactly the top-level nodes
    of the tree, in order, each at level 0: [flat(Infinity)] flattens
    arrays, not the [children] arrays inside the objects [renderFileTree]
    returns, so no node inside a directory is ever listed. *)
Theorem flat_tree_top_level (files : list file_node) :
  map (fun v => match v with
                | JSObject (Rendered n lvl _) => Some (n, lvl)
                | JSArray _ => None
                end) (flatTree files)
  = map (fun n => Some (n, 0)) files.
Proof.
  unfold flatTree, renderFileTree.
  induction files as [|n files IH]; simpl; [reflexivity|].
  rewrite IH. destruct n. reflexivity.
Qed.

End ViewerPageProps.

(* ------------------------------------------------------------------ *)
(** ** [endsWith], [replace] and [split('\n')] *)

Module StrFacts.
Import Path PathFacts ListEndpoint QueryEndpoint.

Lemma ends_with_app (p suf : string) : ends_with suf (p ++ suf) = true.
Proof.
  induction p as [|c p IH].
  - change (ends_with suf suf = true). destruct suf as [|x s]; [reflexivity|].
    cbn [ends_with]. now rewrite String.eqb_refl.
  - cbn [String.append ends_with]. rewrite IH. apply orb_true_r.
Qed.

Lemma substring_skip (a : string) (m : nat) (b : string) :
  String.substring (String.length a) m (a ++ b) = String.substring 0 m b.
Proof. induction a as [|c a IH]; simpl; [reflexivity | exact IH]. Qed.

Lemma substring_all (b : string) (m : nat) :
  String.length b <= m -> String.substring 0 m b = b.
Proof.
  revert m; induction b as [|c b IH]; intros m H; simpl.
  - destruct m; reflexivity.
  - destruct m as [|m]; [simpl in H; lia|]. f_equal. apply IH. simpl in H. lia.
Qed.

Lemma remove_first_cons (pat : string) (d : ascii) (s : string) :
  remove_first pat (String d s)
  = if String.prefix pat (String d s)
    then String.substring (String.length pat) (String.length (String d s)) (String d s)
    else String d (remove_first pat s).
Proof. destruct pat; reflexivity. Qed.

Lemma prefix_not_across (c : ascii) (p n q : string) :
  String.prefix p n = false -> has_char c p = false ->
  String.prefix p (n ++ String c q) = false.
Proof.
  revert n; induction p as [|a p IH]; intros n Hp Hc;
    [destruct n; simpl in Hp; discriminate Hp|].
  simpl in Hc. apply orb_false_iff in Hc as [Hca Hc].
  destruct n as [|b n]; simpl.
  - destruct (ascii_dec a c) as [->|]; [|reflexivity].
    now rewrite Ascii.eqb_refl in Hca.
  - simpl in Hp. destruct (ascii_dec a b); [|reflexivity]. now apply IH.
Qed.

(** [s.replace(pat, '')] on [n ++ pat] gives back [n] when [n] does not
    contain [pat] and [pat]'s first character does not recur in it. *)
Lemma remove_first_suffix (c : ascii) (p n : string) :
  has_char c p = false -> includes n (String c p) = false ->
  remove_first (String c p) (n ++ String c p) = n.
Proof.
  intros Hc. induction n as [|d n IH]; intro Hn.
  - change (remove_first (String c p) (String c p) = ""). rewrite remove_first_cons.
    pose proof (prefix_app (String c p) "") as Hp. rewrite str_app_nil_r in Hp. rewrite Hp.
    pose proof (substring_skip (String c p) (String.length (String c p)) "") as Hs.
    rewrite str_app_nil_r in Hs. rewrite Hs. destruct (String.length _); reflexivity.
  - simpl in Hn. apply orb_false_iff in Hn as [Hp Hn].
    change (remove_first (String c p) (String d (n ++ String c p)) = String d n).
    rewrite remove_first_cons.
    assert (E : String.prefix (String c p) (String d (n ++ String c p)) = false).
    { simpl. simpl in Hp. destruct (ascii_dec c d); [|reflexivity].
      now apply prefix_not_across. }
    rewrite E, IH by exact Hn. reflexivity.
Qed.

Lemma has_char_app (c : ascii) (a b : string) :
  has_char c (a ++ b) = has_char c a || has_char c b.
Proof. induction a as [|x a IH]; simpl; [reflexivity|]. now rewrite IH, orb_assoc. Qed.

Lemma has_char_remove_first (c : ascii) (pat s : string) :
  has_char c s = true -> has_char c pat = false -> has_char c (remove_first pat s) = true.
Proof.
  intros Hs Hp. induction s as [|d s IH]; [discriminate|].
  rewrite remove_first_cons.
  destruct (String.prefix pat (String d s)) eqn:E.
  - apply StackFacts.prefix_split in E as [w Ew]. rewrite Ew in *.
    rewrite substring_skip, substring_all by (rewrite length_app_str; lia).
    rewrite has_char_app, Hp in Hs. exact Hs.
  - simpl in *. apply orb_true_iff in Hs as [Hd|Hs]; rewrite ?Hd; [reflexivity|].
    rewrite IH by exact Hs. apply orb_true_r.
Qed.

Lemma split_char_app (c : ascii) (a b cur : string) :
  split_char_acc c (a ++ String c b) cur = (split_char_acc c a cur ++ split_char_acc c b "")%list.
Proof.
  revert cur; induction a as [|x a IH]; intro cur; simpl.
  - now rewrite Ascii.eqb_refl.
  - destruct (Ascii.eqb c x); simpl; [now rewrite IH | apply IH].
Qed.

Lemma split_char_none (c : ascii) (b cur : string) :
  has_char c b = false -> split_char_acc c b cur = [cur ++ b].
Proof.
  revert cur; induction b as [|x b IH]; intros cur H; simpl in *.
  - now rewrite str_app_nil_r.
  - apply orb_false_iff in H as [H1 H2]. rewrite H1, IH by exact H2.
    now rewrite str_app_assoc.
Qed.

(** The last line of a text is what follows its last newline. *)
Lemma last_line_of (s line : string) :
  has_char newline line = false ->
  (s = line \/ exists pre, s = pre ++ String newline line) ->
  last_line s = line.
Proof.
  intros Hl [->|[pre ->]]; unfold last_line.
  - now rewrite split_char_none.
  - rewrite split_char_app, (split_char_none _ line) by exact Hl.
    apply last_last.
Qed.

End StrFacts.

(* ------------------------------------------------------------------ *)
(** ** The upload endpoint *)

Module UploadProps.
Import Json Http QueryEndpoint UploadEndpoint.

Section Runs.

Variable fs_result : action -> option string.
Variable proc : action -> proc_event.
Variable iam : list string -> string.

Local Abbreviation perform := (perform fs_result proc iam).
Local Abbreviation run_actions := (run_actions fs_result proc iam).

Lemma run_prefix (l : list action) : exists rest, l = (fst (run_actions l) ++ rest)%list.
Proof.
  induction l as [|a l [rest IH]]; simpl; [now exists []|].
  destruct (perform a); simpl; [now exists l|].
  destruct (UploadEndpoint.run_actions fs_result proc iam l) as [done r]. simpl in *. exists rest. now rewrite IH at 1.
Qed.

Lemma run_all_ok (l : list action) :
  Forall (fun a => perform a = None) l -> run_actions l = (l, None).
Proof.
  induction 1 as [|a l Ha _ IH]; simpl; [reflexivity|].
  now rewrite Ha, IH.
Qed.

Lemma run_none (l : list action) :
  snd (run_actions l) = None -> Forall (fun a => perform a = None) l.
Proof.
  induction l as [|a l IH]; simpl; intro H; [constructor|].
  destruct (perform a) eqn:E; [discriminate|].
  destruct (run_actions l) as [done r] eqn:Er. simpl in H. subst r.
  constructor; [exact E | apply IH; rewrite ?Er; reflexivity].
Qed.

Lemma run_fail (pre : list action) (a : action) (post : list action) (m : string) :
  Forall (fun b => perform b = None) pre -> perform a = Some m ->
  run_actions (pre ++ a :: post) = ((pre ++ [a])%list, Some m).
Proof.
  intros Hp Ha. induction Hp as [|b pre Hb _ IH]; simpl.
  - now rewrite Ha.
  - rewrite Hb. simpl in IH. now rewrite IH.
Qed.

Lemma run_nonempty (a : action) (l : list action) : fst (run_actions (a :: l)) <> [].
Proof.
  simpl. destruct (perform a); [discriminate|].
  destruct (run_actions l). discriminate.
Qed.

End Runs.

(** The upload handler touches the disk or starts a process only for a
    form field ['file'] that is a [File] whose name ends in [.zip]; every
    other request is answered 400 or 500 without any action. *)
Theorem upload_acts_only_on_zip (fs_result : action -> option string)
  (proc : action -> proc_event) (iam : list string -> string)
  (home cwd : string) (form : string + form_value) (hex : string) :
  (snd (POST fs_result proc iam home cwd form hex) <> []
   <-> exists name, form = inr (FFile name) /\ ListEndpoint.ends_with ".zip" name = true)
  /\ (snd (POST fs_result proc iam home cwd form hex) = [] ->
      status (fst (POST fs_result proc iam home cwd form hex)) = 400%Z
      \/ status (fst (POST fs_result proc iam home cwd form hex)) = 500%Z).
Proof.
  destruct form as [msg|[|v|name]]; unfold POST.
  - simpl. split; [split; [intro H; now contradiction H | intros (n & E & _); discriminate] | auto].
  - simpl. split; [split; [intro H; now contradiction H | intros (n & E & _); discriminate] | auto].
  - destruct (String.eqb v ""); simpl;
      (split; [split; [intro H; now contradiction H | intros (n & E & _); discriminate] | auto]).
  - destruct (ListEndpoint.ends_with ".zip" name) eqn:Ez; simpl negb; cbv iota.
    + set (acts := pipeline home cwd (ListEndpoint.remove_first ".zip" name) hex).
      assert (Hne : fst (UploadEndpoint.run_actions fs_result proc iam acts) <> [])
        by exact (run_nonempty fs_result proc iam _ _).
      destruct (UploadEndpoint.run_actions fs_result proc iam acts) as [done [m|]]; simpl in *;
        (split; [split; [intros _; eauto | intros _; exact Hne] | intro H; contradiction]).
    + simpl. split; [split; [intro H; now contradiction H
                            | intros (n & E & Hz); injection E as <-; congruence] | auto].
Qed.

(** Once the name ends in [.zip], the handler runs its steps in program
    order (create the temp and output directories, write the archive,
    create the extraction directory, unzip, ingest, run the documenter) and
    stops at the first one that fails: the steps attempted are a prefix of
    that list, the answer is 200 exactly when every step succeeded (and all
    were attempted), and a failing step ends the run with a 500 carrying its
    error message, no later step attempted. *)
Theorem upload_steps_in_order (fs_result : action -> option string)
  (proc : action -> proc_event) (iam : list string -> string)
  (home cwd name hex : string) :
  ListEndpoint.ends_with ".zip" name = true ->
  let acts := pipeline home cwd (ListEndpoint.remove_first ".zip" name) hex in
  let r := POST fs_result proc iam home cwd (inr (FFile name)) hex in
  (exists rest, acts = (snd r ++ rest)%list)
  /\ (status (fst r) = 200%Z
      <-> snd r = acts /\ Forall (fun a => perform fs_result proc iam a = None) acts)
  /\ (forall pre a post m, acts = (pre ++ a :: post)%list ->
        Forall (fun b => perform fs_result proc iam b = None) pre ->
        perform fs_result proc iam a = Some m ->
        r = (json_status (error_body m) 500, (pre ++ [a])%list)).
Proof.
  intros Hz acts r. subst r. unfold POST. rewrite Hz. simpl negb. cbv iota. fold acts.
  split; [|split].
  - destruct (run_prefix fs_result proc iam acts) as [rest Hr].
    exists rest. destruct (UploadEndpoint.run_actions fs_result proc iam acts) as [done [m|]];
      exact Hr.
  - destruct (UploadEndpoint.run_actions fs_result proc iam acts) as [done [m|]] eqn:E; simpl.
    + split; [discriminate|]. intros [_ Hall].
      rewrite (run_all_ok fs_result proc iam acts Hall) in E. discriminate.
    + split; [|reflexivity]. intros _.
      pose proof (run_none fs_result proc iam acts) as Hn. rewrite E in Hn.
      specialize (Hn eq_refl).
      rewrite (run_all_ok fs_result proc iam acts Hn) in E. injection E as <-. auto.
  - intros pre a post m Ha Hp Hm. rewrite Ha, (run_fail fs_result proc iam pre a post m Hp Hm).
    reflexivity.
Qed.

Lemma upload_steps_in_order_witness :
  let fsr := fun _ : action => @None string in
  let pr := fun a => match a with
                     | ASpawn JIngest _ _ _ _ => PClose (Some 101%Z) "" "error: no manifest"
                     | _ => PClose (Some 0%Z) "" ""
                     end in
  let acts := pipeline "/home/u" "/srv/web" "proj" "0123456789abcdef" in
  let r := POST fsr pr (fun _ => "bad") "/home/u" "/srv/web" (inr (FFile "proj.zip"))
             "0123456789abcdef" in
  (exists rest, acts = (snd r ++ rest)%list)
  /\ (status (fst r) = 200%Z
      <-> snd r = acts /\ Forall (fun a => perform fsr pr (fun _ => "bad") a = None) acts)
  /\ (forall pre a post m, acts = (pre ++ a :: post)%list ->
        Forall (fun b => perform fsr pr (fun _ => "bad") b = None) pre ->
        perform fsr pr (fun _ => "bad") a = Some m ->
        r = (json_status (error_body m) 500, (pre ++ [a])%list)).
Proof.
  intros fsr pr acts r.
  exact (upload_steps_in_order fsr pr (fun _ => "bad") "/home/u" "/srv/web" "proj.zip"
           "0123456789abcdef" ltac:(vm_compute; reflexivity)).
Defined.

(** A successful upload of [n.zip], where [n] does not contain [.zip],
    answers with the docpack id [n-<hex>], and the ingest step wrote the
    docpack to the directory the file and query endpoints open for that
    id ([FileEndpoint.docpack_path]). *)
Theorem upload_id_names_docpack (fs_result : action -> option string)
  (proc : action -> proc_event) (iam : list string -> string)
  (home cwd n hex : string) :
  Path.includes n ".zip" = false ->
  status (fst (POST fs_result proc iam home cwd (inr (FFile (n ++ ".zip"))) hex)) = 200%Z ->
  Json.get (body (fst (POST fs_result proc iam home cwd (inr (FFile (n ++ ".zip"))) hex)))
    "docpackId" = Some (Some (JStr (n ++ "-" ++ hex)))
  /\ In (ASpawn JIngest "cargo"
           ["run"; "--"; "ingest"; Path.join (TEMP_DIR home) hex;
            "--out"; FileEndpoint.docpack_path home (n ++ "-" ++ hex); "--name"; n]
           (Some (Path.join_all [cwd; ".."; "cli"])) None)
        (snd (POST fs_result proc iam home cwd (inr (FFile (n ++ ".zip"))) hex)).
Proof.
  intros Hn Hs.
  assert (Hz : ListEndpoint.ends_with ".zip" (n ++ ".zip") = true) by apply StrFacts.ends_with_app.
  assert (Hu : ListEndpoint.remove_first ".zip" (n ++ ".zip") = n)
    by (apply (StrFacts.remove_first_suffix "." "zip"); [reflexivity | exact Hn]).
  destruct (upload_steps_in_order fs_result proc iam home cwd (n ++ ".zip") hex Hz)
    as (_ & [Hok _] & _).
  destruct (Hok Hs) as [Hacts _]. rewrite Hacts.
  unfold POST in *. rewrite Hz in *. simpl negb in *. cbv iota in *. rewrite Hu in *.
  destruct (UploadEndpoint.run_actions fs_result proc iam _) as [done [m|]]; [discriminate Hs|].
  split; [reflexivity|].
  unfold pipeline, FileEndpoint.docpack_path, FileEndpoint.OUTPUT_DIR, OUTPUT_DIR.
  rewrite PathFacts.str_app_assoc. simpl. tauto.
Qed.

Lemma upload_id_names_docpack_witness :
  let fsr := fun _ : action => @None string in
  let pr := fun _ : action => PClose (Some 0%Z) "" "" in
  Json.get (body (fst (POST fsr pr (fun _ => "bad") "/home/u" "/srv/web"
                         (inr (FFile ("proj" ++ ".zip"))) "0123456789abcdef")))
    "docpackId" = Some (Some (JStr ("proj" ++ "-" ++ "0123456789abcdef")))
  /\ In (ASpawn JIngest "cargo"
           ["run"; "--"; "ingest"; Path.join (TEMP_DIR "/home/u") "0123456789abcdef";
            "--out"; FileEndpoint.docpack_path "/home/u" ("proj" ++ "-" ++ "0123456789abcdef");
            "--name"; "proj"]
           (Some (Path.join_all ["/srv/web"; ".."; "cli"])) None)
        (snd (POST fsr pr (fun _ => "bad") "/home/u" "/srv/web"
                (inr (FFile ("proj" ++ ".zip"))) "0123456789abcdef")).
Proof.
  intros fsr pr.
  exact (upload_id_names_docpack fsr pr (fun _ => "bad") "/home/u" "/srv/web" "proj"
           "0123456789abcdef" ltac:(vm_compute; reflexivity) ltac:(vm_compute; reflexivity)).
Defined.

(** A [.zip] name holding a null byte does not escape the handler as it
    does in the query endpoint: once the steps before the ingest succeed,
    [spawn] rejects the ingest argument vector, the awaited promise
    rejects, and the [catch] block answers 500 with [spawn]'s message;
    neither [cargo] process is started. *)
Theorem upload_nul_name_structured (fs_result : action -> option string)
  (proc : action -> proc_event) (iam : list string -> string)
  (home cwd name hex : string) :
  ListEndpoint.ends_with ".zip" name = true -> has_char nul name = true ->
  let u := ListEndpoint.remove_first ".zip" name in
  let acts := pipeline home cwd u hex in
  Forall (fun a => perform fs_result proc iam a = None) (firstn 5 acts) ->
  POST fs_result proc iam home cwd (inr (FFile name)) hex
  = (json_status (error_body
       (iam ["run"; "--"; "ingest"; Path.join (TEMP_DIR home) hex; "--out";
             Path.join (OUTPUT_DIR home) (u ++ "-" ++ hex ++ ".docpack"); "--name"; u])) 500,
     firstn 6 acts).
Proof.
  intros Hz Hn u acts Hok.
  assert (Hu : has_char nul u = true)
    by (apply StrFacts.has_char_remove_first; [exact Hn | reflexivity]).
  unfold POST. rewrite Hz. simpl negb. cbv iota. fold u. fold acts.
  set (args := ["run"; "--"; "ingest"; Path.join (TEMP_DIR home) hex; "--out";
                Path.join (OUTPUT_DIR home) (u ++ "-" ++ hex ++ ".docpack"); "--name"; u]).
  assert (Hrej : spawn_rejects args = true).
  { unfold spawn_rejects. apply existsb_exists. exists u. split; [|exact Hu].
    unfold args. simpl. tauto. }
  assert (Hsplit : acts = (firstn 5 acts ++
                           ASpawn JIngest "cargo" args (Some (Path.join_all [cwd; ".."; "cli"])) None
                           :: skipn 6 acts)%list) by reflexivity.
  rewrite Hsplit at 1.
  rewrite (run_fail fs_result proc iam _ _ _ (iam args) Hok)
    by (unfold UploadEndpoint.perform; rewrite Hrej; reflexivity).
  reflexivity.
Qed.

Lemma upload_nul_name_structured_witness :
  let fsr := fun _ : action => @None string in
  let pr := fun _ : action => PClose (Some 0%Z) "" "" in
  let name := "a" ++ String nul ".zip" in
  let u := ListEndpoint.remove_first ".zip" name in
  POST fsr pr (fun _ => "bad") "/home/u" "/srv/web" (inr (FFile name)) "0123456789abcdef"
  = (json_status (error_body "bad") 500,
     firstn 6 (pipeline "/home/u" "/srv/web" u "0123456789abcdef")).
Proof.
  intros fsr pr name u.
  exact (upload_nul_name_structured fsr pr (fun _ => "bad") "/home/u" "/srv/web" name
           "0123456789abcdef" ltac:(vm_compute; reflexivity) ltac:(vm_compute; reflexivity)
           ltac:(vm_compute; repeat constructor)).
Defined.

End UploadProps.

(* ------------------------------------------------------------------ *)
(** ** The query endpoint and the docpack listing, further *)

Module QueryEndpointMore.
Import Json Http QueryEndpoint.

(** When the container exits with code 0 and prints something, the
    handler answers 200 with the JSON value on the last line of its
    trimmed output; every earlier line (the agent's log) is ignored. *)
Theorem query_close_last_line (json_parse : string -> option jvalue)
  (stdout stderr line : string) (v : jvalue) :
  trim stdout <> "" -> has_char newline line = false ->
  (trim stdout = line \/ exists pre, trim stdout = pre ++ String newline line) ->
  json_parse line = Some v ->
  on_close json_parse (Some 0%Z) stdout stderr = json v.
Proof.
  intros Hne Hl Hs Hp. unfold on_close.
  apply String.eqb_neq in Hne. rewrite Hne. simpl.
  rewrite (StrFacts.last_line_of _ line Hl Hs). now rewrite Hp.
Qed.

Lemma query_close_last_line_witness :
  on_close (fun s => if String.eqb s "{}" then Some (JObj []) else None) (Some 0%Z)
    ("step 1" ++ String newline "{}" ++ String newline "") "" = json (JObj []).
Proof.
  apply (query_close_last_line _ _ _ "{}" (JObj []));
    [vm_compute; discriminate | reflexivity | | reflexivity].
  right. exists "step 1". vm_compute. reflexivity.
Defined.

(** The query handler answers 400 "Query is required" exactly when the
    parsed body's [query] is not a non-empty string; in that case it
    starts no container. *)
Theorem query_post_requires_query (json_parse : string -> option jvalue)
  (home cwd id : string) (v : jvalue) (q : option jvalue)
  (proc : list string -> proc_event) :
  get v "query" = Some q ->
  (POST json_parse home cwd id (inr v) proc
   = HResp (json_status (error_body "Query is required") 400)
   <-> ~ exists s, q = Some (JStr s) /\ s <> "").
Proof.
  intro Hq. unfold POST. rewrite Hq.
  destruct q as [[| | |s| |]|];
    try (split; [intros _ (s' & E & _); discriminate | reflexivity]).
  destruct (String.eqb s "") eqn:Es.
  - apply String.eqb_eq in Es. subst s.
    split; [intros _ (s' & E & Hs'); injection E as <-; now apply Hs' | reflexivity].
  - apply String.eqb_neq in Es. split; [|intro H; exfalso; apply H; eauto].
    intro H. exfalso.
    destruct (spawn_rejects _); [discriminate H|].
    destruct (proc _) as [code out err|m]; injection H as H; [|discriminate H].
    apply (f_equal status) in H. revert H. unfold on_close.
    destruct (_ && _); [destruct (json_parse _)|]; simpl; discriminate.
Qed.

Lemma query_post_requires_query_witness :
  POST (fun _ => None) "/home/u" "/srv/web" "x" (inr (JObj [("query", JNum 3)]))
    (fun _ => PSpawnError "unused")
  = HResp (json_status (error_body "Query is required") 400)
  <-> ~ exists s, Some (JNum 3) = Some (JStr s) /\ s <> "".
Proof.
  apply (query_post_requires_query (fun _ => None) "/home/u" "/srv/web" "x"
           (JObj [("query", JNum 3)]) (Some (JNum 3))).
  reflexivity.
Defined.

End QueryEndpointMore.

Module ListEndpointMore.
Import Json Http ListEndpoint.

(** The id listed for a directory [n.docpack], where [n] does not contain
    [.docpack], is [n]: the file, query and viewer endpoints, which open
    [<id>.docpack], are sent back to that directory's name. *)
Theorem list_id_names_dir (json_parse : string -> option jvalue)
  (locale_date : jvalue + string -> string) (o : outputs) (n : string) (v : jvalue) :
  Path.includes n ".docpack" = false ->
  docpack_entry json_parse locale_date o (n ++ ".docpack") = Some v ->
  get v "id" = Some (Some (JStr n)).
Proof.
  intros Hn H. unfold docpack_entry in H.
  destruct (read_manifest o _) as [txt|]; [|discriminate].
  destruct (json_parse txt) as [m|]; [|discriminate].
  destruct (stat_mtime o _) as [mt|]; [|discriminate].
  destruct (get m "name"), (get m "description"), (get m "metadata"); try discriminate.
  injection H as <-.
  rewrite (StrFacts.remove_first_suffix "." "docpack" n eq_refl Hn). reflexivity.
Qed.

Lemma list_id_names_dir_witness :
  let o := mk_outputs (Some ["proj.docpack"]) (fun _ => FS.ROk "{}") (fun _ => Some "t")
                      (fun _ => 0%N) (fun _ => 0%N) in
  match docpack_entry (fun _ => Some (JObj [])) (fun _ => "d") o ("proj" ++ ".docpack") with
  | Some v => get v "id" = Some (Some (JStr "proj"))
  | None => False
  end.
Proof.
  intro o.
  destruct (docpack_entry (fun _ => Some (JObj [])) (fun _ => "d") o ("proj" ++ ".docpack"))
    as [v|] eqn:E.
  - exact (list_id_names_dir (fun _ => Some (JObj [])) (fun _ => "d") o "proj" v eq_refl E).
  - vm_compute in E. discriminate E.
Defined.

(** [formatSize] shows sizes below 1024 in bytes and larger ones in KB
    (below 1024 * 1024) or MB, the number being the size divided by the
    unit rounded to one decimal (nearest tenth, halves up).  In the KB
    range the number runs from 1.0 up to 1024.0 inclusive. *)
Theorem formatSize_units (b : N) :
  ((b < 1024)%N -> formatSize b = N_to_string b ++ " B")
  /\ ((1024 <= b < 1048576)%N ->
      exists t, formatSize b = N_to_string (t / 10) ++ "." ++ N_to_string (t mod 10) ++ " KB"
        /\ (2048 * t <= 20 * b + 1024 < 2048 * (t + 1))%N /\ (10 <= t <= 10240)%N)
  /\ ((1048576 <= b)%N ->
      exists t, formatSize b = N_to_string (t / 10) ++ "." ++ N_to_string (t mod 10) ++ " MB"
        /\ (2097152 * t <= 20 * b + 1048576 < 2097152 * (t + 1))%N /\ (10 <= t)%N).
Proof.
  unfold formatSize, to_fixed1. split; [|split]; intro H.
  - apply N.ltb_lt in H. now rewrite H.
  - assert (E1 : (b <? 1024)%N = false) by (apply N.ltb_ge; lia).
    assert (E2 : (b <? 1024 * 1024)%N = true) by (apply N.ltb_lt; lia).
    rewrite E1, E2. exists ((20 * b + 1024) / (2 * 1024))%N.
    split; [now rewrite !PathFacts.str_app_assoc|].
    pose proof (N.div_mod (20 * b + 1024) (2 * 1024) ltac:(lia)) as Hd.
    pose proof (N.mod_lt (20 * b + 1024) (2 * 1024) ltac:(lia)) as Hm.
    set (t := ((20 * b + 1024) / (2 * 1024))%N) in *.
    set (r := ((20 * b + 1024) mod (2 * 1024))%N) in *. lia.
  - assert (E1 : (b <? 1024)%N = false) by (apply N.ltb_ge; lia).
    assert (E2 : (b <? 1024 * 1024)%N = false) by (apply N.ltb_ge; lia).
    rewrite E1, E2. exists ((20 * b + 1024 * 1024) / (2 * (1024 * 1024)))%N.
    split; [now rewrite !PathFacts.str_app_assoc|].
    pose proof (N.div_mod (20 * b + 1024 * 1024) (2 * (1024 * 1024)) ltac:(lia)) as Hd.
    pose proof (N.mod_lt (20 * b + 1024 * 1024) (2 * (1024 * 1024)) ltac:(lia)) as Hm.
    set (t := ((20 * b + 1024 * 1024) / (2 * (1024 * 1024)))%N) in *.
    set (r := ((20 * b + 1024 * 1024) mod (2 * (1024 * 1024)))%N) in *. lia.
Qed.

End ListEndpointMore.
